(** * topic_index: a shallow embedding of [topic_index.c]

    The program reads a text, splits it into lower-cased alphanumeric
    words and sentences, keeps one [WordEntry] per distinct word in a
    chained hash table, and prints the statistics of a topic word and of
    the four most frequent other words that are not stop words.

    Conventions of the embedding.
    - A C string is a [string] (a list of bytes without the final NUL).
    - [int] values returned by [fgetc] are [Z]: the codes of the bytes of
      the input in turn, then [EOF]; the loop that reads until [EOF] is a
      fold over the list of bytes.
    - [long] and [size_t] counters are [Z].  No counter can leave the
      range of its C type on an input of less than [2^30] bytes:
      [scan_counters_bounded] bounds each of them by the input length.
    - A chain of [WordEntry] nodes linked through [next] is a [list];
      the static array [hash_table] is a list of [HASH_SIZE] chains.
    - [malloc], [realloc] and [strdup] may fail: the environment says for
      each allocation request of the run whether it succeeds.
    - [double] percentages are exact rationals ([Q]); the rounding of the
      floating-point division and of [printf] is not modelled. *)

From Stdlib Require Import ZArith QArith Ascii String List Sorting.Sorted Permutation Lia.
From stdpp Require Import base tactics option strings numbers sorting list.

Local Open Scope Z_scope.

(** ** Constants *)

Definition INITIAL_BUF_SIZE : Z := 64.
Definition HASH_SIZE : Z := 10007.

(** [<stdio.h>] and [<stdlib.h>]. *)
Definition EOF : Z := -1.
Definition EXIT_SUCCESS : Z := 0.
Definition EXIT_FAILURE : Z := 1.

(** Width of [unsigned long] (LP64). *)
Definition ULONG_BITS : Z := 64.

Definition STOP_WORDS : list string :=
  [ "a"; "an"; "and"; "are"; "as"; "at"; "be"; "by"; "for"; "from"; "has"; "he"; "in";
    "is"; "it"; "its"; "of"; "on"; "that"; "the"; "to"; "was"; "were"; "will"; "with";
    "I"; "you"; "me"; "my"; "we"; "our"; "they"; "their"; "them"; "this"; "those";
    "these"; "your"; "yours"; "his"; "her"; "hers"; "him"; "she"; "who"; "whom";
    "what"; "which"; "when"; "where"; "why"; "how"; "if"; "or"; "but"; "not" ]%string.

(** ** Characters and strings ([<ctype.h>] in the "C" locale, [<string.h>]) *)

Definition code (a : ascii) : Z := Z.of_N (N_of_ascii a).
Definition to_char (c : Z) : ascii := ascii_of_N (Z.to_N (c mod 256)).

Definition isalnum (c : Z) : bool :=
  ((48 <=? c) && (c <=? 57)) || ((65 <=? c) && (c <=? 90)) || ((97 <=? c) && (c <=? 122)).

Definition tolower (c : Z) : Z :=
  if (65 <=? c) && (c <=? 90) then c + 32 else c.

(** [strcmp]: the difference of the first bytes that differ, [0] for equal
    strings (the end of a string reads as the byte [0]). *)
Fixpoint strcmp (a b : string) : Z :=
  match a, b with
  | EmptyString, EmptyString => 0
  | EmptyString, String y _ => 0 - code y
  | String x _, EmptyString => code x
  | String x a', String y b' =>
      if code x =? code y then strcmp a' b' else code x - code y
  end.

(** ** The word table *)

Record WordEntry : Type := mkWordEntry {
  word : string;            (* lower-case word *)
  count : Z;                (* total occurrences *)
  sentence_count : Z;       (* number of sentences containing the word *)
  last_sentence_id : Z      (* helper to avoid double counting within a sentence *)
}.

#[global] Instance WordEntry_eq_dec : EqDecision WordEntry.
Proof. solve_decision. Defined.

(** simple hash - djb2.  Each operation of [((h << 5) + h) + c] wraps
    around at [2 ^ ULONG_BITS], and so does their result. *)
Definition hash_step (h : Z) (a : ascii) : Z :=
  ((Z.shiftl h 5 + h) + code a) mod 2 ^ ULONG_BITS.

Fixpoint hash_loop (s : string) (h : Z) : Z :=
  match s with
  | EmptyString => h
  | String a s' => hash_loop s' (hash_step h a)
  end.

Definition hash_word (s : string) : Z := hash_loop s 5381 mod HASH_SIZE.

Fixpoint is_stop_word_from (sw : list string) (w : string) : bool :=
  match sw with
  | [] => false
  | s :: sw' => if strcmp s w =? 0 then true else is_stop_word_from sw' w
  end.

Definition is_stop_word (w : string) : bool := is_stop_word_from STOP_WORDS w.

(** The chains of the table; chain [i] is [hash_table[i]] followed through
    [next]. *)
Abbreviation table := (list (list WordEntry)).

Definition empty_table : table := replicate (Z.to_nat HASH_SIZE) [].

Definition chain (t : table) (h : Z) : list WordEntry :=
  default [] (t !! Z.to_nat h).

(** The walk [while (e) { if (strcmp(e->word, word) == 0) break; e = e->next; }]:
    the position in the chain of the node it stops at, [None] for [NULL]. *)
Fixpoint chain_find (w : string) (c : list WordEntry) : option nat :=
  match c with
  | [] => None
  | e :: c' => if strcmp (word e) w =? 0 then Some 0%nat else S <$> chain_find w c'
  end.

(** update counts *)
Definition update_counts (e : WordEntry) (current_sentence : Z) : WordEntry :=
  let e1 := mkWordEntry (word e) (count e + 1) (sentence_count e) (last_sentence_id e) in
  if decide (last_sentence_id e1 <> current_sentence)
  then mkWordEntry (word e1) (count e1) (sentence_count e1 + 1) current_sentence
  else e1.

(** The node [get_word_entry] allocates for a word seen for the first time. *)
Definition fresh_entry (w : string) : WordEntry := mkWordEntry w 0 0 (-1).

(** ** The environment and the state of a run *)

Record world : Type := mkWorld {
  alloc_ok : nat -> bool;            (* does allocation request number [n] succeed *)
  fopen : string -> option string;   (* the files that can be opened for reading *)
  stdin : string                     (* the bytes of the standard input *)
}.

Record mem : Type := mkMem {
  hash_table : table;
  allocs : list bool                 (* the answers to the allocation requests so far *)
}.

Inductive diagnostic : Type :=
| Fprintf (s : string)               (* fprintf(stderr, s) *)
| Perror (s : string).               (* perror(s) *)

(** A computation returns a value and the new state, or leaves the
    program through [exit]. *)
Inductive res (A : Type) : Type :=
| Ret (a : A) (m : mem)
| Exit (st : Z) (err : diagnostic) (m : mem).
Arguments Ret {A} a m.
Arguments Exit {A} st err m.

Definition M (A : Type) : Type := mem -> res A.

Definition ret {A} (a : A) : M A := fun m => Ret a m.

Definition bind {A B} (c : M A) (k : A -> M B) : M B :=
  fun m => match c m with
           | Ret a m' => k a m'
           | Exit st err m' => Exit st err m'
           end.

Definition exit {A} (st : Z) (err : diagnostic) : M A := fun m => Exit st err m.

Notation "x <- c ;; k" := (bind c (fun x => k))
  (at level 100, c at next level, right associativity).
Notation "c ;;; k" := (bind c (fun _ => k))
  (at level 100, right associativity).

Definition get_table : M table := fun m => Ret (hash_table m) m.

Definition modify_table (f : table -> table) : M unit :=
  fun m => Ret tt (mkMem (f (hash_table m)) (allocs m)).

Fixpoint foldM {A B} (f : B -> A -> M B) (l : list A) (b : B) : M B :=
  match l with
  | [] => ret b
  | a :: l' => b' <- f b a ;; foldM f l' b'
  end.

Definition newline : string := String (ascii_of_nat 10) EmptyString.

Definition out_of_memory : diagnostic :=
  Fprintf ("topic_index: out of memory" +:+ newline).

Section Run.

Context (w : world).

(** [malloc], [realloc], [strdup]: [true] for a pointer, [false] for [NULL]. *)
Definition malloc : M bool :=
  fun m => let p := alloc_ok w (length (allocs m)) in
           Ret p (mkMem (hash_table m) (allocs m ++ [p])).

Definition xmalloc : M unit :=
  p <- malloc ;;
  if p then ret tt else exit EXIT_FAILURE out_of_memory.

(** Obtain or create the word entry.  The entry is returned as the index of
    its chain and its position in the chain. *)
Definition get_word_entry (wd : string) (current_sentence : Z) : M (Z * nat) :=
  let h := hash_word wd in
  t <- get_table ;;
  pos <- match chain_find wd (chain t h) with
         | Some pos => ret pos
         | None =>
             xmalloc ;;;
             p <- malloc ;;
             if p then
               modify_table (alter (cons (fresh_entry wd)) (Z.to_nat h)) ;;;
               ret 0%nat
             else exit EXIT_FAILURE out_of_memory
         end ;;
  modify_table
    (alter (alter (fun e => update_counts e current_sentence) pos) (Z.to_nat h)) ;;;
  ret (h, pos).

(** *** [main], lines 178-240: reading the words *)

Record scan : Type := mkScan {
  buf : list ascii;
  buf_cap : Z;
  total_words : Z;
  total_sentences : Z;
  current_sentence_id : Z
}.

Definition buf_len (s : scan) : Z := Z.of_nat (length (buf s)).

(** finish word if buffer not empty *)
Definition finish_word (s : scan) : M scan :=
  if 0 <? buf_len s then
    get_word_entry (string_of_list_ascii (buf s)) (current_sentence_id s) ;;;
    ret (mkScan [] (buf_cap s) (total_words s + 1) (total_sentences s)
           (current_sentence_id s))
  else ret s.

Definition is_terminator (c : Z) : bool :=
  (c =? code "."%char) || (c =? code "!"%char) || (c =? code "?"%char).

(** The body of [while ((c = fgetc(fp)) != EOF)]. *)
Definition scan_char (s : scan) (a : ascii) : M scan :=
  let c := code a in
  if isalnum c then
    s1 <- (if buf_len s + 1 >=? buf_cap s then
             p <- malloc ;;
             if p then
               ret (mkScan (buf s) (buf_cap s * 2) (total_words s) (total_sentences s)
                      (current_sentence_id s))
             else exit EXIT_FAILURE out_of_memory
           else ret s) ;;
    ret (mkScan (buf s1 ++ [to_char (tolower c)]) (buf_cap s1) (total_words s1)
           (total_sentences s1) (current_sentence_id s1))
  else
    s1 <- finish_word s ;;
    if is_terminator c then
      ret (mkScan (buf s1) (buf_cap s1) (total_words s1) (total_sentences s1 + 1)
             (total_sentences s1 + 1))
    else ret s1.

Definition main_scan (fp : string) : M scan :=
  xmalloc ;;;
  s <- foldM scan_char (list_ascii_of_string fp) (mkScan [] INITIAL_BUF_SIZE 0 0 0) ;;
  s <- finish_word s ;;
  if (total_sentences s =? 0) && (0 <? total_words s) then
    ret (mkScan (buf s) (buf_cap s) (total_words s) 1 (current_sentence_id s))
  else ret s.

(** *** [main], lines 242-261: collect word pointers for sorting *)

(** The table is not changed after the collection, so a pointer to an
    entry is modelled by the entry it points to. *)
Definition WordPtr : Type := WordEntry.

Definition collect_entry (array : list WordPtr) (e : WordEntry) : M (list WordPtr) :=
  p <- malloc ;;
  if p then ret (array ++ [e]) else exit EXIT_FAILURE out_of_memory.

(** [for (i = 0; i < HASH_SIZE; ++i)] visits the slots of [hash_table] in
    the order of their indices, which is the order of the list of chains
    ([entries_by_index]). *)
Definition main_collect : M (list WordPtr) :=
  t <- get_table ;;
  foldM (fun array c => foldM collect_entry c array) t [].

End Run.

Definition cmp_wordptr_count (wa wb : WordPtr) : Z :=
  if count wa <? count wb then 1
  else if count wb <? count wa then -1
  else 0.

(** ** [qsort] ([<stdlib.h>])

    The C library sorts the array in ascending order of the comparison
    function and says nothing on the order of elements that compare equal.
    Its contract, for a comparison function that is a total preorder: *)

Definition cmp_le {A} (cmp : A -> A -> Z) (a b : A) : Prop := cmp a b <= 0.

Record consistent {A} (cmp : A -> A -> Z) : Prop := {
  cmp_total : forall a b, cmp_le cmp a b \/ cmp_le cmp b a;
  cmp_trans : forall a b c, cmp_le cmp a b -> cmp_le cmp b c -> cmp_le cmp a c
}.

Class Qsort : Type := {
  qsort : forall {A}, list A -> (A -> A -> Z) -> list A;
  qsort_perm : forall A (l : list A) cmp, qsort l cmp ≡ₚ l;
  qsort_sorted : forall A (l : list A) cmp,
      consistent cmp -> StronglySorted (cmp_le cmp) (qsort l cmp)
}.

(** ** [main], lines 265-308: the topic entry and the top 4 *)

Definition lower_string (s : string) : string :=
  string_of_list_ascii (map (fun a => to_char (tolower (code a))) (list_ascii_of_string s)).

(** Find topic entry *)
Fixpoint chain_lookup (wd : string) (c : list WordEntry) : option WordEntry :=
  match c with
  | [] => None
  | e :: c' => if strcmp (word e) wd =? 0 then Some e else chain_lookup wd c'
  end.

(** Gather top 4 non-stop-words excluding topic: the loop
    [for (i = 0; i < array_size && found < 4; ++i)] on the rest of the
    array.  The test [e == topic_entry] compares pointers; the nodes of the
    table have pairwise distinct words ([entries_distinct]), so two entries
    are equal exactly when they are the same node. *)
Fixpoint top4_loop (array : list WordPtr) (topic_entry : option WordEntry)
    (top4 : list (option WordEntry)) (found : nat) : list (option WordEntry) :=
  match array with
  | [] => top4
  | e :: rest =>
      if (found <? 4)%nat then
        if decide (Some e = topic_entry) then top4_loop rest topic_entry top4 found
        else if is_stop_word (word e) then top4_loop rest topic_entry top4 found
        else top4_loop rest topic_entry (<[found := Some e]> top4) (S found)
      else top4
  end.

(** The state in which [main] starts: the static array is zeroed and no
    allocation has been requested. *)
Definition initial : mem := mkMem empty_table [].

(** What lines 178-308 of [main] compute. *)
Record analysis : Type := mkAnalysis {
  a_total_words : Z;
  a_total_sentences : Z;
  a_array : list WordPtr;                 (* the sorted array *)
  a_topic_entry : option WordEntry;
  a_top4 : list (option WordEntry)
}.

Section Main.

Context {libc : Qsort} (w : world).

(** [main], lines 178-308. *)
Definition main_body (topic : string) (fp : string) : M analysis :=
  s <- main_scan w fp ;;
  array <- main_collect w ;;
  let array := qsort array cmp_wordptr_count in
  p <- malloc w ;;
  if p then
    let topic_lc := lower_string topic in
    t <- get_table ;;
    let topic_entry := chain_lookup topic_lc (chain t (hash_word topic_lc)) in
    let top4 := top4_loop array topic_entry (replicate 4 None) 0 in
    ret (mkAnalysis (total_words s) (total_sentences s) array topic_entry top4)
  else exit EXIT_FAILURE out_of_memory.

(** *** The report *)

Definition percentage (n total : Z) : Q :=
  if 0 <? total then (100 * inject_Z n / inject_Z total)%Q else 0%Q.

(** The arguments of the [printf] of [PRINT_LINE]. *)
Record line : Type := mkLine {
  l_word : string;
  l_count : Z;
  l_pct_w : Q;
  l_sentence_count : Z;
  l_total_sentences : Z;
  l_pct_s : Q
}.

Definition PRINT_LINE (total_words total_sentences : Z) (entry : option WordEntry)
    : list line :=
  match entry with
  | Some e =>
      [ mkLine (word e) (count e) (percentage (count e) total_words)
          (sentence_count e) total_sentences
          (percentage (sentence_count e) total_sentences) ]
  | None => []
  end.

Record report : Type := mkReport {
  rep_topic : string;
  rep_total_words : Z;
  rep_total_sentences : Z;
  rep_lines : list line
}.

Definition print_report (topic : string) (a : analysis) : report :=
  mkReport topic (a_total_words a) (a_total_sentences a)
    (PRINT_LINE (a_total_words a) (a_total_sentences a) (a_topic_entry a)
     ++ concat (map (PRINT_LINE (a_total_words a) (a_total_sentences a)) (a_top4 a))).

(** What a run leaves behind: the exit status, what was written to the
    standard output and to the standard error, and the answers of the
    allocator. *)
Record outcome : Type := mkOutcome {
  status : Z;
  stdout : option report;
  stderr : list diagnostic;
  requests : list bool
}.

Definition usage (argv : list string) : diagnostic :=
  Fprintf ("Usage: " +:+ default "(null)"%string (argv !! 0%nat)
           +:+ " <topic_word> [file]" +:+ newline).

(** [main] once the input is open.  The cleanup ([free], [fclose],
    [free_hash_table]) changes nothing of what a run leaves behind. *)
Definition run_body (topic fp : string) : outcome :=
  match main_body topic fp initial with
  | Ret a m => mkOutcome EXIT_SUCCESS (Some (print_report topic a)) [] (allocs m)
  | Exit st err m => mkOutcome st None [err] (allocs m)
  end.

Definition main (argv : list string) : outcome :=
  if decide (length argv < 2)%nat then
    mkOutcome EXIT_FAILURE None [usage argv] []
  else
    let topic := default EmptyString (argv !! 1%nat) in
    if decide (3 <= length argv)%nat then
      match fopen w (default EmptyString (argv !! 2%nat)) with
      | None => mkOutcome EXIT_FAILURE None [Perror "fopen"] []
      | Some fp => run_body topic fp
      end
    else run_body topic (stdin w).

End Main.

(** ** A sorting function and an environment to run the program with *)

#[global] Instance cmp_le_dec {A} (cmp : A -> A -> Z) : RelDecision (cmp_le cmp).
Proof. intros a b. unfold cmp_le. apply _. Defined.

#[global] Program Instance merge_qsort : Qsort := {|
  qsort A l cmp := merge_sort (cmp_le cmp) l
|}.
Next Obligation. intros. apply merge_sort_Permutation. Qed.
Next Obligation.
  intros A l cmp [Htot Htr].
  apply StronglySorted_merge_sort.
  - intros a b c. apply Htr.
  - intros a b. apply Htot.
Qed.

Definition calm (text : string) : world :=
  mkWorld (fun _ => true) (fun _ => None) text.

(** * Specification

    The predicates and functions in which the properties of the program
    are stated: C strings, the entries of the table, the words and the
    sentence terminators of a text, the invariants of the reading loop,
    and the runs in which no allocation fails. *)

(** ** The table

    A C string holds no NUL byte. *)
Definition c_string (s : string) : Prop :=
  Forall (fun a => code a <> 0) (list_ascii_of_string s).

(** All entries of the table, chain after chain. *)
Definition entries (t : table) : list WordEntry := mjoin t.

(** The table has [HASH_SIZE] chains and every entry is in the chain of
    its hash; the words are C strings. *)
Definition table_wf (t : table) : Prop :=
  length t = Z.to_nat HASH_SIZE /\
  forall i c e, t !! i = Some c -> e ∈ c ->
    hash_word (word e) = Z.of_nat i /\ c_string (word e).

(** The entry of a word, found as [main] finds the topic entry. *)
Definition lookup_word (wd : string) (t : table) : option WordEntry :=
  chain_lookup wd (chain t (hash_word wd)).

(** What recording an occurrence of [wd] in sentence [cs] does to the
    entries of the table: the entry of [wd], or a fresh one put in the table
    when [wd] has none, goes through [update_counts]; the other entries stay. *)
Definition recorded (wd : string) (cs : Z) (t t' : table) : Prop :=
  exists l1 l2 e0,
    entries t' = l1 ++ update_counts e0 cs :: l2 /\
    ((entries t = l1 ++ e0 :: l2 /\ word e0 = wd) \/
     (entries t = l1 ++ l2 /\ e0 = fresh_entry wd /\ wd ∉ word <$> entries t)).

(** The sum of the counts of the entries [l]. *)
Definition total_count (l : list WordEntry) : Z := foldr Z.add 0 (count <$> l).

(** The counters of an entry while the current sentence has id [sid]. *)
Definition entry_ok (sid : Z) (e : WordEntry) : Prop :=
  1 <= sentence_count e <= count e /\
  0 <= last_sentence_id e <= sid /\
  sentence_count e <= last_sentence_id e + 1.

(** ** The words and sentences of a text

    A word is a maximal run of alphanumeric characters, lower-cased; a
    sentence terminator is one of [.], [!] and [?]. *)

Definition lower_char (a : ascii) : ascii := to_char (tolower (code a)).

(** The runs of alphanumeric characters between the other characters
    (empty between two neighbours that are not alphanumeric). *)
Fixpoint split_words (l : list ascii) : list (list ascii) :=
  match l with
  | [] => [[]]
  | a :: l' =>
      if isalnum (code a) then
        match split_words l' with
        | r :: rs => (a :: r) :: rs
        | [] => [[a]]
        end
      else [] :: split_words l'
  end.

Definition words_of_runs (rs : list (list ascii)) : list string :=
  string_of_list_ascii <$> filter (fun r => r <> []) rs.

Definition spec_words (text : string) : list string :=
  words_of_runs (split_words (lower_char <$> list_ascii_of_string text)).

Definition count_terminators (l : list ascii) : Z :=
  Z.of_nat (length (filter (fun a => is_terminator (code a) = true) l)).

Definition spec_sentences (text : string) : Z :=
  count_terminators (list_ascii_of_string text).

(** The number of occurrences of the word [x] among the words [ws]. *)
Definition occurrences (x : string) (ws : list string) : Z :=
  Z.of_nat (length (filter (fun y => y = x) ws)).

(** ** The invariants of the reading loop

    The table once the words [ws] have been recorded, in this order. *)
Record table_inv (ws : list string) (s : scan) (m : mem) : Prop := {
  ti_wf : table_wf (hash_table m);
  ti_nodup : NoDup (word <$> entries (hash_table m));
  ti_entries : Forall (entry_ok (current_sentence_id s)) (entries (hash_table m));
  ti_total : total_count (entries (hash_table m)) = total_words s;
  ti_words : total_words s = Z.of_nat (length ws);
  ti_keys : forall x, x ∈ word <$> entries (hash_table m) <-> x ∈ ws;
  ti_counts :
    Forall (fun e => count e = occurrences (word e) ws) (entries (hash_table m))
}.

(** The state after the characters [pre] have been read: the buffer holds
    the run of alphanumeric characters that [pre] ends with, and the runs
    before it have been recorded. *)
Record scan_inv (pre : list ascii) (s : scan) (m : mem) : Prop := {
  inv_runs : exists rs,
    split_words (lower_char <$> pre) = rs ++ [buf s] /\ table_inv (words_of_runs rs) s m;
  inv_buf : Forall (fun a => code a <> 0) (buf s);
  inv_sentences : total_sentences s = count_terminators pre;
  inv_sid : current_sentence_id s = total_sentences s;
  inv_len : total_words s + buf_len s + total_sentences s <= Z.of_nat (length pre);
  inv_cap : buf_len s + 1 <= buf_cap s <= Z.max INITIAL_BUF_SIZE (2 * Z.of_nat (length pre))
}.

(** The state once the whole text has been read. *)
Record scanned (text : string) (s : scan) (m : mem) : Prop := {
  sc_table : table_inv (spec_words text) s m;
  sc_sid : current_sentence_id s = spec_sentences text;
  sc_sentences :
    total_sentences s =
    if (spec_sentences text =? 0) && (0 <? total_words s) then 1 else spec_sentences text;
  sc_len :
    total_words s + spec_sentences text <= Z.of_nat (length (list_ascii_of_string text));
  sc_cap :
    buf_cap s <= Z.max INITIAL_BUF_SIZE (2 * Z.of_nat (length (list_ascii_of_string text)))
}.

(** ** Allocation

    The allocator of [w] grants every request. *)
Definition generous (w : world) : Prop := forall n, alloc_ok w n = true.

(** [c'] returns, and [c] returns nothing else when it returns. *)
Definition sim {A} (c c' : M A) : Prop :=
  forall m, exists a m', c' m = Ret a m' /\
    forall b m'', c m = Ret b m'' -> b = a /\ m'' = m'.

(** ** The selection and the report

    The entries the loop may select: not the topic entry, not a stop word. *)
Definition eligible (topic_entry : option WordEntry) (e : WordEntry) : Prop :=
  Some e <> topic_entry /\ is_stop_word (word e) = false.

#[global] Instance eligible_dec topic_entry e : Decision (eligible topic_entry e).
Proof. unfold eligible. apply _. Defined.

(** The entries of [top4] that are not [NULL], in the order of the array. *)
Definition selected (top4 : list (option WordEntry)) : list WordEntry := omap id top4.

(** The array [top4] when the entries [sel] (at most 4) have been selected. *)
Definition slots (sel : list WordEntry) : list (option WordEntry) :=
  (Some <$> sel) ++ replicate (4 - length sel) None.

(** The lines of the report are those of the topic entry and of the
    selected entries. *)
Definition line_of (total_words total_sentences : Z) (e : WordEntry) : line :=
  mkLine (word e) (count e) (percentage (count e) total_words)
    (sentence_count e) total_sentences (percentage (sentence_count e) total_sentences).

(** A computation that returns has had all its allocation requests
    granted; one that exits does so with [EXIT_FAILURE], after the message
    [out_of_memory], and its last allocation request is the one that was
    refused. *)
Definition alloc_traced {A} (c : M A) : Prop :=
  forall m,
    match c m with
    | Ret _ m' => exists k, allocs m' = allocs m ++ replicate k true
    | Exit st err m' =>
        st = EXIT_FAILURE /\ err = out_of_memory /\
        exists k, allocs m' = allocs m ++ replicate k true ++ [false]
    end.

Definition demo_text : string := "The cat sat. The cat ran. The dog slept.".

(** A line for the word [wd] whose counts and percentages are all zero. *)
Definition zero_row (wd : string) (l : line) : Prop :=
  l_word l = wd /\ l_count l = 0 /\ l_sentence_count l = 0 /\
  (l_pct_w l == 0)%Q /\ (l_pct_s l == 0)%Q.

(** ** The characters of a word *)

(** A digit or a lower-case letter. *)
Definition lower_alnum (a : ascii) : Prop :=
  48 <= code a <= 57 \/ 97 <= code a <= 122.

(** The hash of djb2 without the wrap-around. *)
Fixpoint djb2 (s : string) (h : Z) : Z :=
  match s with
  | EmptyString => h
  | String a s' => djb2 s' (h * 33 + code a)
  end.

(** ** The sentences of a text

    The pieces of the text between the terminators; the last one is what
    follows the last terminator (the whole text when there is none). *)
Fixpoint split_sentences (l : list ascii) : list (list ascii) :=
  match l with
  | [] => [[]]
  | a :: l' =>
      if is_terminator (code a) then [] :: split_sentences l'
      else
        match split_sentences l' with
        | r :: rs => (a :: r) :: rs
        | [] => [[a]]
        end
  end.

(** The words of a piece of text. *)
Definition sentence_words (seg : list ascii) : list string :=
  words_of_runs (split_words (lower_char <$> seg)).

(** The number of the sentences [segs] in which the word [x] occurs. *)
Definition sentences_with (x : string) (segs : list (list ascii)) : Z :=
  Z.of_nat (length (filter (fun seg => x ∈ sentence_words seg) segs)).

(** The sentence counters of an entry when the sentences [segs] are closed,
    the words [ws] of the current sentence have been recorded and the
    current sentence has id [sid]. *)
Definition sent_ok (segs : list (list ascii)) (ws : list string) (sid : Z)
    (e : WordEntry) : Prop :=
  sentence_count e =
    sentences_with (word e) segs + (if decide (word e ∈ ws) then 1 else 0) /\
  (last_sentence_id e = sid <-> word e ∈ ws).

(** The sentence counters of the table after the characters [pre]. *)
Definition sent_inv (pre : list ascii) (s : scan) (m : mem) : Prop :=
  exists segs cur rs,
    split_sentences pre = segs ++ [cur] /\
    split_words (lower_char <$> cur) = rs ++ [buf s] /\
    (forall x seg, seg ∈ segs -> x ∈ sentence_words seg ->
       x ∈ word <$> entries (hash_table m)) /\
    (forall x, x ∈ words_of_runs rs -> x ∈ word <$> entries (hash_table m)) /\
    Forall (sent_ok segs (words_of_runs rs) (current_sentence_id s))
      (entries (hash_table m)).

(** ** The allocation requests

    The requests made when the reading loop has doubled the buffer [d]
    times: [n0] before the loop, one for each doubling and two for each
    entry of the table. *)
Definition alloc_inv (n0 : Z) (s : scan) (m : mem) : Prop :=
  exists d,
    0 <= d /\ buf_cap s = INITIAL_BUF_SIZE * 2 ^ d /\
    Z.of_nat (length (allocs m)) =
      n0 + d + 2 * Z.of_nat (length (entries (hash_table m))).

(** ** The terminators and the topic, in the words of the specification

    The sentence terminators are the characters [.], [!] and [?]; the
    terminators of a text are counted one by one. *)
Definition terminators : list ascii := ["."; "!"; "?"]%char.

Definition terminator_count (text : string) : Z :=
  Z.of_nat (length (filter (fun a => a ∈ terminators) (list_ascii_of_string text))).

(** The topic in lower case, character by character. *)
Definition lower_case (s : string) : string :=
  string_of_list_ascii (lower_char <$> list_ascii_of_string s).

(** A text in which the words have the counts 7 ([the]), 6 ([cat]), 5, 4, 3,
    2 and 1. *)
Definition ranked_text : string :=
  "the the the the the the the Cat cat cat CAT cat cat dog dog dog dog dog bird bird bird bird fish fish fish ant ant bee.".

(** * Properties *)

(** ** Characters and strings *)

Lemma code_inj a b : code a = code b -> a = b.
Proof.
  unfold code. intros H. apply N2Z.inj in H.
  rewrite <- (ascii_N_embedding a), <- (ascii_N_embedding b). congruence.
Qed.

Lemma code_range a : 0 <= code a < 256.
Proof.
  unfold code. pose proof (N_ascii_bounded a). lia.
Qed.

Lemma code_to_char c : 0 <= c < 256 -> code (to_char c) = c.
Proof.
  intros H. unfold code, to_char. rewrite N_ascii_embedding.
  - rewrite Z.mod_small by lia. lia.
  - rewrite Z.mod_small by lia. lia.
Qed.

Lemma c_string_cons a s : c_string (String a s) <-> code a <> 0 /\ c_string s.
Proof.
  unfold c_string. simpl. split.
  - by inversion 1.
  - intros [? ?]. by constructor.
Qed.

Lemma strcmp_eq a b : c_string a -> c_string b -> strcmp a b = 0 <-> a = b.
Proof.
  revert b. induction a as [|x a IH]; intros [|y b] Ha Hb; simpl.
  - tauto.
  - apply c_string_cons in Hb as [Hy _]. split; [lia | discriminate].
  - apply c_string_cons in Ha as [Hx _]. split; [lia | discriminate].
  - apply c_string_cons in Ha as [_ Ha]. apply c_string_cons in Hb as [_ Hb].
    destruct (Z.eqb_spec (code x) (code y)) as [E|E].
    + rewrite (IH b Ha Hb). apply code_inj in E. split; congruence.
    + split; [lia | intros [= -> ->]; congruence].
Qed.

Lemma strcmp_refl a : strcmp a a = 0.
Proof. induction a as [|x a IH]; simpl; [done|]. by rewrite Z.eqb_refl. Qed.

Lemma hash_word_range s : 0 <= hash_word s < HASH_SIZE.
Proof. unfold hash_word. apply Z.mod_pos_bound. reflexivity. Qed.

Lemma is_stop_word_from_In sw wd :
  Forall c_string sw -> c_string wd ->
  is_stop_word_from sw wd = true <-> wd ∈ sw.
Proof.
  intros Hsw Hwd. induction Hsw as [|s sw Hs _ IH]; simpl.
  - split; [discriminate | by intros ?%elem_of_nil].
  - rewrite elem_of_cons. destruct (Z.eqb_spec (strcmp s wd) 0) as [E|E].
    + assert (s = wd) as -> by (apply strcmp_eq; auto).
      split; [by left | done].
    + rewrite IH. split; [tauto | intros [->|?]; [|done]].
      destruct E. apply strcmp_refl.
Qed.

Lemma STOP_WORDS_c_string : Forall c_string STOP_WORDS.
Proof. unfold c_string. repeat constructor; vm_compute; discriminate. Qed.

Lemma is_stop_word_spec wd : c_string wd -> is_stop_word wd = true <-> wd ∈ STOP_WORDS.
Proof. apply is_stop_word_from_In, STOP_WORDS_c_string. Qed.

(** ** The monad *)

Lemma bind_Ret {A B} (c : M A) (k : A -> M B) m b m' :
  bind c k m = Ret b m' <-> exists a m1, c m = Ret a m1 /\ k a m1 = Ret b m'.
Proof.
  unfold bind. destruct (c m) as [a m1|st err m1]; split.
  - eauto.
  - by intros (? & ? & [= <- <-] & ?).
  - discriminate.
  - by intros (? & ? & ? & ?).
Qed.

Lemma bind_Exit {A B} (c : M A) (k : A -> M B) m st err m' :
  bind c k m = Exit st err m' <->
  c m = Exit st err m' \/ exists a m1, c m = Ret a m1 /\ k a m1 = Exit st err m'.
Proof.
  unfold bind. destruct (c m) as [a m1|st1 err1 m1]; split.
  - intros H. right. eauto.
  - intros [?|(? & ? & [= <- <-] & ?)]; done.
  - intros [= -> -> ->]. by left.
  - intros [[= -> -> ->]|(? & ? & ? & ?)]; done.
Qed.

(** An allocation request followed by the test of its result. *)
Lemma alloc_Ret {A} w (k : M A) st err m a m' :
  bind (malloc w) (fun p : bool => if p then k else exit st err) m = Ret a m' <->
  alloc_ok w (length (allocs m)) = true /\
  k (mkMem (hash_table m) (allocs m ++ [true])) = Ret a m'.
Proof.
  unfold bind, malloc, exit. destruct (alloc_ok w (length (allocs m))); split.
  - auto.
  - tauto.
  - discriminate.
  - by intros [? _].
Qed.

Lemma alloc_Exit {A} w (k : M A) st err m st' err' m' :
  bind (malloc w) (fun p : bool => if p then k else exit st err) m = Exit st' err' m' <->
  (alloc_ok w (length (allocs m)) = false /\ st' = st /\ err' = err /\
   m' = mkMem (hash_table m) (allocs m ++ [false])) \/
  (alloc_ok w (length (allocs m)) = true /\
   k (mkMem (hash_table m) (allocs m ++ [true])) = Exit st' err' m').
Proof.
  unfold bind, malloc, exit. destruct (alloc_ok w (length (allocs m))); split.
  - auto.
  - by intros [[? _]|[_ ?]].
  - intros [= <- <- <-]. auto.
  - intros [(_ & -> & -> & ->)|[? _]]; done.
Qed.

Lemma xmalloc_Ret w m u m' :
  xmalloc w m = Ret u m' <->
  alloc_ok w (length (allocs m)) = true /\ m' = mkMem (hash_table m) (allocs m ++ [true]).
Proof.
  unfold xmalloc. rewrite alloc_Ret. unfold ret. destruct u.
  split; intros [? ?]; split; congruence.
Qed.

(** Inverts the hypotheses that say a computation returned. *)
Ltac minv :=
  repeat match goal with
  | H : bind (malloc _) (fun p : bool => if p then _ else exit _ _) _ = Ret _ _ |- _ =>
      apply alloc_Ret in H; destruct H as [? H]
  | H : xmalloc _ _ = Ret _ _ |- _ => apply xmalloc_Ret in H; destruct H as [? ->]
  | H : bind _ _ _ = Ret _ _ |- _ =>
      apply bind_Ret in H; destruct H as (? & ? & ? & H)
  | H : ret _ _ = Ret _ _ |- _ => unfold ret in H
  | H : get_table _ = Ret _ _ |- _ => unfold get_table in H
  | H : modify_table _ _ = Ret _ _ |- _ => unfold modify_table in H
  | H : exit _ _ _ = Ret _ _ |- _ => discriminate H
  | H : Ret ?a ?m = Ret ?b ?m' |- _ =>
      injection H as ? ?; try subst b; try subst m'
  end.

(** An invariant of the loop body, indexed by the elements consumed so
    far, holds after the loop. *)
Lemma foldM_inv {A B} (f : B -> A -> M B) (I : list A -> B -> mem -> Prop) l :
  forall pre b m b' m',
    (forall pre a b m b' m',
        I pre b m -> f b a m = Ret b' m' -> I (pre ++ [a]) b' m') ->
    I pre b m -> foldM f l b m = Ret b' m' -> I (pre ++ l) b' m'.
Proof.
  induction l as [|a l IH]; intros pre b m b' m' Hstep HI H; simpl in H.
  - minv. by rewrite app_nil_r.
  - minv. rewrite (cons_middle a pre l), app_assoc. eauto.
Qed.

(** ** The word table *)

Lemma empty_table_wf : table_wf empty_table.
Proof.
  split; [apply length_replicate|].
  intros i c e [-> _]%lookup_replicate He. by apply elem_of_nil in He.
Qed.

Lemma entries_empty_table : entries empty_table = [].
Proof.
  unfold entries, empty_table. induction (Z.to_nat HASH_SIZE); simpl; auto.
Qed.

Lemma chain_find_Some wd c pos :
  Forall (fun e => c_string (word e)) c -> c_string wd ->
  chain_find wd c = Some pos ->
  exists c1 e c2, c = c1 ++ e :: c2 /\ length c1 = pos /\ word e = wd.
Proof.
  intros Hc Hwd. revert pos.
  induction Hc as [|e c He _ IH]; intros pos H; simpl in H; [discriminate|].
  destruct (Z.eqb_spec (strcmp (word e) wd) 0) as [E|E].
  - injection H as <-. exists [], e, c. apply strcmp_eq in E; auto.
  - destruct (chain_find wd c) as [p|]; [|discriminate].
    injection H as <-. destruct (IH p eq_refl) as (c1 & e' & c2 & -> & <- & <-).
    by exists (e :: c1), e', c2.
Qed.

Lemma chain_find_None wd c :
  chain_find wd c = None -> forall e, e ∈ c -> word e <> wd.
Proof.
  induction c as [|e c IH]; intros H e' He'; simpl in H.
  - by apply elem_of_nil in He'.
  - destruct (Z.eqb_spec (strcmp (word e) wd) 0) as [E|E]; [discriminate|].
    destruct (chain_find wd c); [discriminate|].
    apply elem_of_cons in He' as [->|He']; [|by apply IH].
    intros <-. apply E, strcmp_refl.
Qed.

Lemma chain_lookup_Some wd c e :
  Forall (fun e => c_string (word e)) c -> c_string wd ->
  chain_lookup wd c = Some e -> e ∈ c /\ word e = wd.
Proof.
  intros Hc Hwd. induction Hc as [|e0 c He0 _ IH]; simpl; [discriminate|].
  destruct (Z.eqb_spec (strcmp (word e0) wd) 0) as [E|E].
  - intros [= <-]. split; [apply list_elem_of_here|]. apply strcmp_eq in E; auto.
  - intros [? ?]%IH. split; [by apply list_elem_of_further | done].
Qed.

Lemma chain_lookup_None wd c :
  chain_lookup wd c = None -> forall e, e ∈ c -> word e <> wd.
Proof.
  induction c as [|e c IH]; intros H e' He'; simpl in H.
  - by apply elem_of_nil in He'.
  - destruct (Z.eqb_spec (strcmp (word e) wd) 0) as [E|E]; [discriminate|].
    apply elem_of_cons in He' as [->|He']; [|by apply IH].
    intros <-. apply E, strcmp_refl.
Qed.

Lemma chain_lookup_is_Some wd c e :
  e ∈ c -> word e = wd -> is_Some (chain_lookup wd c).
Proof.
  intros He Hw. destruct (chain_lookup wd c) eqn:E; [eauto|].
  by destruct (chain_lookup_None _ _ E e He).
Qed.

Section Table.

Context (t : table) (Hwf : table_wf t).

Lemma table_chain h :
  0 <= h < HASH_SIZE ->
  t = take (Z.to_nat h) t ++ chain t h :: drop (S (Z.to_nat h)) t
  /\ t !! Z.to_nat h = Some (chain t h).
Proof.
  intros Hh. destruct Hwf as [Hlen _]. unfold chain.
  destruct (lookup_lt_is_Some_2 t (Z.to_nat h)) as [c Hc]; [lia|].
  rewrite Hc. simpl. split; [|done]. symmetry. by apply take_drop_middle.
Qed.

Lemma chain_c_string h : Forall (fun e => c_string (word e)) (chain t h).
Proof.
  unfold chain. destruct (t !! Z.to_nat h) as [c|] eqn:E; simpl; [|constructor].
  apply Forall_forall. intros e He. exact (proj2 (proj2 Hwf _ _ _ E He)).
Qed.

Lemma elem_of_entries e :
  e ∈ entries t <-> e ∈ chain t (hash_word (word e)).
Proof.
  unfold entries. rewrite list_elem_of_join. split.
  - intros (c & He & [i Hi]%list_elem_of_lookup).
    destruct (proj2 Hwf _ _ _ Hi He) as [-> _].
    unfold chain. by rewrite Nat2Z.id, Hi.
  - intros He. exists (chain t (hash_word (word e))). split; [done|].
    destruct (table_chain (hash_word (word e)) (hash_word_range _)) as [_ H].
    by eapply list_elem_of_lookup_2.
Qed.

Lemma entries_c_string e : e ∈ entries t -> c_string (word e).
Proof.
  intros He%elem_of_entries.
  eapply (proj1 (Forall_forall _ _) (chain_c_string _)), He.
Qed.

Lemma lookup_word_Some wd e :
  c_string wd -> lookup_word wd t = Some e -> e ∈ entries t /\ word e = wd.
Proof.
  intros Hwd H. apply chain_lookup_Some in H as [He <-]; auto using chain_c_string.
  split; [|done]. by apply elem_of_entries.
Qed.

Lemma lookup_word_None wd :
  lookup_word wd t = None -> forall e, e ∈ entries t -> word e <> wd.
Proof.
  intros H e He%elem_of_entries <-. by eapply chain_lookup_None.
Qed.

End Table.

(** ** [get_word_entry] *)

Lemma alter_middle {A} (f : A -> A) (l1 : list A) x l2 :
  alter f (length l1) (l1 ++ x :: l2) = l1 ++ f x :: l2.
Proof. rewrite alter_app_r_alt by lia. by rewrite Nat.sub_diag. Qed.

Lemma table_split (t : table) h :
  table_wf t -> 0 <= h < HASH_SIZE ->
  exists t1 t2, t = t1 ++ chain t h :: t2 /\ length t1 = Z.to_nat h.
Proof.
  intros Hwf Hh. destruct (table_chain t Hwf h Hh) as [Heq _].
  eexists _, _. split; [exact Heq|].
  rewrite length_take. destruct Hwf as [Hlen _]. lia.
Qed.

Lemma chain_middle (t1 : table) c t2 h :
  length t1 = Z.to_nat h -> chain (t1 ++ c :: t2) h = c.
Proof.
  intros H. unfold chain. rewrite <- H. by rewrite list_lookup_middle.
Qed.

Lemma word_update_counts e cs : word (update_counts e cs) = word e.
Proof. unfold update_counts. by case_decide. Qed.

Lemma alter_wf (t : table) f h :
  table_wf t ->
  (forall e, e ∈ f (chain t h) ->
     hash_word (word e) = h /\ c_string (word e)) ->
  0 <= h < HASH_SIZE ->
  table_wf (alter f (Z.to_nat h) t).
Proof.
  intros Hwf Hf Hh. split; [rewrite length_alter; apply Hwf|].
  intros i c e Hi He. destruct (decide (i = Z.to_nat h)) as [->|Hne].
  - rewrite list_lookup_alter_eq in Hi.
    destruct (table_chain t Hwf h Hh) as [_ Hc]. rewrite Hc in Hi.
    injection Hi as <-. destruct (Hf e He) as [-> ?]. split; [lia | done].
  - rewrite list_lookup_alter_ne in Hi by done. by apply (proj2 Hwf i c e).
Qed.

Lemma get_word_entry_Ret w wd cs m p m' :
  table_wf (hash_table m) -> c_string wd ->
  get_word_entry w wd cs m = Ret p m' ->
  table_wf (hash_table m') /\ recorded wd cs (hash_table m) (hash_table m').
Proof.
  intros Hwf Hwd H. unfold get_word_entry in H.
  pose proof (hash_word_range wd) as Hh.
  destruct (table_split _ _ Hwf Hh) as (t1 & t2 & Ht & Hlen).
  pose proof (chain_c_string _ Hwf (hash_word wd)) as Hcs.
  assert (Hc : forall e, e ∈ chain (hash_table m) (hash_word wd) ->
                         hash_word (word e) = hash_word wd /\ c_string (word e)).
  { intros e He. destruct (table_chain _ Hwf _ Hh) as [_ Hl].
    destruct (proj2 Hwf _ _ _ Hl He) as [-> ?]. split; [lia | done]. }
  assert (Hin : forall e, e ∈ entries (hash_table m) -> word e = wd ->
                          e ∈ chain (hash_table m) (hash_word wd)).
  { intros e He <-. by apply elem_of_entries. }
  remember (chain (hash_table m) (hash_word wd)) as c eqn:Ec.
  minv. rewrite <- Ec in *. destruct (chain_find wd c) as [pos|] eqn:Hfind; minv; simpl.
  - apply chain_find_Some in Hfind as (c1 & e & c2 & -> & <- & Hw); [|done..].
    split.
    + apply alter_wf; [done| |done]. intros e'. rewrite <- Ec, alter_middle.
      intros He'. assert (e' = update_counts e cs \/ e' ∈ c1 ++ e :: c2) as [->|?].
      { rewrite elem_of_app, elem_of_cons in He'. rewrite elem_of_app, elem_of_cons. tauto. }
      * rewrite word_update_counts. apply Hc. rewrite elem_of_app, elem_of_cons. tauto.
      * by apply Hc.
    + exists (mjoin t1 ++ c1), (c2 ++ mjoin t2), e. split; [|left; split; [|done]].
      * rewrite Ht at 1. rewrite <- Hlen, alter_middle, alter_middle.
        unfold entries. rewrite join_app. simpl. by rewrite <- !app_assoc.
      * rewrite Ht at 1. unfold entries. rewrite join_app. simpl.
        by rewrite <- !app_assoc.
  - pose proof (chain_find_None _ _ Hfind) as Hnone.
    rewrite list_alter_alter_eq. split.
    + apply alter_wf; [done| |done]. intros e'. rewrite <- Ec. simpl.
      intros [->|He']%elem_of_cons.
      * by rewrite word_update_counts.
      * by apply Hc.
    + exists (mjoin t1), (c ++ mjoin t2), (fresh_entry wd).
      split; [|right; split; [|split; [done|]]].
      * rewrite Ht at 1. rewrite <- Hlen, alter_middle.
        unfold entries. rewrite join_app. by simpl.
      * rewrite Ht at 1. unfold entries. rewrite join_app. by simpl.
      * intros (e & -> & He)%list_elem_of_fmap. apply (Hnone e); [by apply Hin | done].
Qed.

(** ** What recording keeps *)

Lemma total_count_cons e l : total_count (e :: l) = count e + total_count l.
Proof. done. Qed.

Lemma total_count_app l1 l2 : total_count (l1 ++ l2) = total_count l1 + total_count l2.
Proof.
  induction l1 as [|e l1 IH]; [done|].
  rewrite <- app_comm_cons, !total_count_cons, IH. lia.
Qed.

Lemma count_le_total_count l e :
  Forall (fun e => 0 <= count e) l -> e ∈ l -> count e <= total_count l.
Proof.
  induction 1 as [|e' l He' Hl IH]; intros Hin.
  - by apply elem_of_nil in Hin.
  - assert (0 <= total_count l).
    { clear IH Hin. induction Hl as [|x l Hx _ IH]; [done|].
      rewrite total_count_cons. lia. }
    rewrite total_count_cons. apply elem_of_cons in Hin as [->|Hin]; [lia|].
    specialize (IH Hin). lia.
Qed.

Lemma count_update_counts e cs : count (update_counts e cs) = count e + 1.
Proof. unfold update_counts. by case_decide. Qed.

Lemma sentence_count_update_counts e cs :
  sentence_count (update_counts e cs) =
  if decide (last_sentence_id e = cs) then sentence_count e else sentence_count e + 1.
Proof. unfold update_counts. simpl. repeat case_decide; simpl; congruence. Qed.

Lemma last_sentence_id_update_counts e cs : last_sentence_id (update_counts e cs) = cs.
Proof. unfold update_counts. simpl. case_decide; simpl; [done|]. destruct (decide (last_sentence_id e = cs)); tauto. Qed.

Lemma entry_ok_update_counts sid cs e :
  sid <= cs -> entry_ok sid e -> entry_ok cs (update_counts e cs).
Proof.
  intros Hle (Hc & Hl & Hs). unfold entry_ok.
  rewrite count_update_counts, sentence_count_update_counts, last_sentence_id_update_counts.
  case_decide; lia.
Qed.

Lemma entry_ok_fresh cs wd : 0 <= cs -> entry_ok cs (update_counts (fresh_entry wd) cs).
Proof.
  intros Hcs. unfold entry_ok.
  rewrite count_update_counts, sentence_count_update_counts, last_sentence_id_update_counts.
  simpl. case_decide; lia.
Qed.

Lemma entry_ok_mono sid sid' e : sid <= sid' -> entry_ok sid e -> entry_ok sid' e.
Proof. unfold entry_ok. lia. Qed.

Lemma recorded_words wd cs (t t' : table) x :
  recorded wd cs t t' ->
  x ∈ word <$> entries t' <-> x = wd \/ x ∈ word <$> entries t.
Proof.
  intros Hrec. destruct Hrec as (l1 & l2 & e0 & -> & [[-> Hw]|(-> & -> & Hnew)]);
    rewrite !fmap_app, !fmap_cons, !elem_of_app, ?elem_of_cons, ?elem_of_app,
      ?elem_of_cons, !word_update_counts; simpl; subst; tauto.
Qed.

Lemma recorded_NoDup wd cs (t t' : table) :
  recorded wd cs t t' ->
  NoDup (word <$> entries t) -> NoDup (word <$> entries t').
Proof.
  intros Hrec. destruct Hrec as (l1 & l2 & e0 & -> & [[-> Hw]|(-> & -> & Hnew)]);
    rewrite !fmap_app, ?fmap_cons, !word_update_counts; [done|].
  intros Hnd. apply NoDup_app in Hnd as (H1 & H12 & H2).
  rewrite fmap_app, elem_of_app in Hnew. simpl.
  apply NoDup_app. split; [done|]. split.
  - intros x Hx [->|?]%elem_of_cons; [tauto | by apply (H12 x)].
  - apply NoDup_cons. tauto.
Qed.

Lemma recorded_total_count wd cs (t t' : table) :
  recorded wd cs t t' ->
  total_count (entries t') = total_count (entries t) + 1.
Proof.
  intros Hrec. destruct Hrec as (l1 & l2 & e0 & -> & [[-> Hw]|(-> & -> & Hnew)]);
    rewrite !total_count_app, ?total_count_cons, count_update_counts; simpl; lia.
Qed.

Lemma recorded_Forall wd cs (t t' : table) (P : WordEntry -> Prop) :
  recorded wd cs t t' ->
  (forall e, P e -> P (update_counts e cs)) ->
  P (update_counts (fresh_entry wd) cs) ->
  Forall P (entries t) -> Forall P (entries t').
Proof.
  intros Hrec Hupd Hfresh.
  destruct Hrec as (l1 & l2 & e0 & -> & [[-> Hw]|(-> & -> & Hnew)]);
    rewrite !Forall_app, ?Forall_cons; intuition auto.
Qed.

Lemma recorded_entry_ok wd cs (t t' : table) sid :
  recorded wd cs t t' ->
  sid <= cs -> 0 <= cs ->
  Forall (entry_ok sid) (entries t) -> Forall (entry_ok cs) (entries t').
Proof.
  intros Hrec Hle Hcs H. apply (recorded_Forall _ _ _ _ _ Hrec).
  - intros e. by apply entry_ok_update_counts.
  - by apply entry_ok_fresh.
  - eapply Forall_impl; [done|]. intros e. by apply entry_ok_mono.
Qed.

Lemma occurrences_snoc x ws wd :
  occurrences x (ws ++ [wd]) = occurrences x ws + (if decide (wd = x) then 1 else 0).
Proof.
  unfold occurrences. rewrite filter_app, length_app, filter_cons, filter_nil.
  case_decide; simpl; lia.
Qed.

Lemma occurrences_notin x ws : x ∉ ws -> occurrences x ws = 0.
Proof.
  intros Hx. unfold occurrences.
  destruct (filter (fun y => y = x) ws) as [|y l] eqn:E; [done|].
  assert (y ∈ filter (fun y => y = x) ws) as Hy by (rewrite E; apply list_elem_of_here).
  apply list_elem_of_filter in Hy as [-> Hy]. done.
Qed.

Lemma recorded_counts wd cs (t t' : table) ws :
  recorded wd cs t t' ->
  NoDup (word <$> entries t) ->
  (forall x, x ∈ word <$> entries t <-> x ∈ ws) ->
  Forall (fun e => count e = occurrences (word e) ws) (entries t) ->
  Forall (fun e => count e = occurrences (word e) (ws ++ [wd])) (entries t').
Proof.
  intros (l1 & l2 & e0 & -> & Hcase) Hnd Hkeys Hcnt.
  assert (Hl : Forall (fun e => count e = occurrences (word e) ws /\ word e <> wd) (l1 ++ l2)
               /\ count e0 = occurrences wd ws /\ word e0 = wd).
  { destruct Hcase as [[Ht Hw]|(Ht & -> & Hnew)]; rewrite Ht in *.
    - rewrite fmap_app, fmap_cons in Hnd.
      apply NoDup_app in Hnd as (N1 & N12 & N2). apply NoDup_cons in N2 as [N2a N2b].
      rewrite Forall_app, Forall_cons in Hcnt. destruct Hcnt as (C1 & C0 & C2).
      split; [|split; [by rewrite <- Hw | done]].
      apply Forall_app. split; apply Forall_forall; intros e He.
      + split; [by apply (proj1 (Forall_forall _ _) C1)|]. intros Hwe.
        apply (N12 (word e)); [by apply list_elem_of_fmap_2|].
        rewrite Hwe, <- Hw. apply list_elem_of_here.
      + split; [by apply (proj1 (Forall_forall _ _) C2)|]. intros Hwe.
        apply N2a. rewrite Hw, <- Hwe. by apply list_elem_of_fmap_2.
    - split; [|split; [|done]].
      + apply Forall_forall. intros e He.
        split; [by apply (proj1 (Forall_forall _ _) Hcnt)|]. intros Hwe.
        apply Hnew. rewrite <- Hwe. by apply list_elem_of_fmap_2.
      + simpl. symmetry. apply occurrences_notin. by rewrite <- Hkeys. }
  destruct Hl as (Hl & H0 & Hw0). apply Forall_app in Hl as [H1 H2].
  assert (Hkeep : forall l,
    Forall (fun e => count e = occurrences (word e) ws /\ word e <> wd) l ->
    Forall (fun e => count e = occurrences (word e) (ws ++ [wd])) l).
  { intros l Hl. eapply Forall_impl; [exact Hl|]. intros e [Hc Hne]. simpl.
    rewrite occurrences_snoc, decide_False by congruence. lia. }
  apply Forall_app. split; [by apply Hkeep|].
  apply Forall_cons. split; [|by apply Hkeep].
  rewrite count_update_counts, word_update_counts, occurrences_snoc, Hw0.
  rewrite decide_True by done. lia.
Qed.


(** ** The words and sentences of a text *)

Example spec_words_cats :
  spec_words "Cats cats CATS." = ["cats"; "cats"; "cats"]%string.
Proof. reflexivity. Qed.

Lemma code_lower_char a : code (lower_char a) = tolower (code a).
Proof.
  unfold lower_char. apply code_to_char. pose proof (code_range a).
  unfold tolower. destruct (_ && _) eqn:E; [|lia].
  apply andb_true_iff in E as [_ E%Z.leb_le]. lia.
Qed.

Lemma isalnum_tolower c : isalnum (tolower c) = isalnum c.
Proof.
  unfold isalnum, tolower.
  destruct (Z.leb_spec 65 c), (Z.leb_spec c 90); simpl;
    repeat match goal with |- context [?a <=? ?b] => destruct (Z.leb_spec a b) end;
    simpl; try reflexivity; lia.
Qed.

Lemma isalnum_lower_char a : isalnum (code (lower_char a)) = isalnum (code a).
Proof. by rewrite code_lower_char, isalnum_tolower. Qed.

Lemma isalnum_nonzero c : isalnum c = true -> c <> 0.
Proof.
  unfold isalnum. intros H ->. discriminate H.
Qed.

Lemma split_words_last l : exists init last, split_words l = init ++ [last].
Proof.
  induction l as [|a l (init & last & IH)]; simpl.
  - by exists [], [].
  - rewrite IH. destruct (isalnum (code a)).
    + destruct init as [|r rs]; simpl.
      * by exists [], (a :: last).
      * by exists ((a :: r) :: rs), last.
    + by exists ([] :: init), last.
Qed.

Lemma split_words_snoc l a init last :
  split_words l = init ++ [last] ->
  split_words (l ++ [a]) =
  if isalnum (code a) then init ++ [last ++ [a]] else init ++ [last; []].
Proof.
  revert init last. induction l as [|b l IH]; intros init last H; simpl in *.
  - destruct init as [|? [|]]; [|discriminate H..].
    injection H as <-. by destruct (isalnum (code a)).
  - destruct (split_words_last l) as (init' & last' & Hl).
    rewrite (IH _ _ Hl). rewrite Hl in H.
    assert (Hne : forall (x : list ascii) xs, xs ++ [x] <> []) by (by intros ? []).
    destruct (isalnum (code b)).
    + destruct init' as [|r rs]; simpl in *.
      * destruct init as [|? init]; simpl in H.
        -- injection H as <-. by destruct (isalnum (code a)).
        -- injection H as _ H. symmetry in H. by apply Hne in H.
      * destruct init as [|r0 init]; simpl in H.
        -- injection H as _ H. by apply Hne in H.
        -- injection H as <- H. apply app_inj_tail in H as [-> ->].
           by destruct (isalnum (code a)).
    + destruct init as [|r0 init]; simpl in H.
      * injection H as _ H. by apply Hne in H.
      * injection H as <- H. apply app_inj_tail in H as [-> ->].
        by destruct (isalnum (code a)).
Qed.

Lemma words_of_runs_app rs1 rs2 :
  words_of_runs (rs1 ++ rs2) = words_of_runs rs1 ++ words_of_runs rs2.
Proof. unfold words_of_runs. by rewrite filter_app, fmap_app. Qed.

Lemma count_terminators_snoc l a :
  count_terminators (l ++ [a]) =
  count_terminators l + (if is_terminator (code a) then 1 else 0).
Proof.
  unfold count_terminators. rewrite filter_app, length_app.
  rewrite filter_cons, filter_nil.
  destruct (is_terminator (code a)); case_decide; simpl; try done; lia.
Qed.

(** ** The reading loop *)

Lemma count_terminators_nonneg l : 0 <= count_terminators l.
Proof. unfold count_terminators. lia. Qed.

Lemma c_string_of_list l :
  Forall (fun a => code a <> 0) l -> c_string (string_of_list_ascii l).
Proof. unfold c_string. by rewrite list_ascii_of_string_of_list_ascii. Qed.

Lemma words_of_runs_singleton r :
  words_of_runs [r] = if decide (r = []) then [] else [string_of_list_ascii r].
Proof.
  unfold words_of_runs. rewrite filter_cons, filter_nil.
  repeat case_decide; done.
Qed.

Lemma finish_word_Ret w ws s m s' m' :
  table_inv ws s m -> Forall (fun a => code a <> 0) (buf s) ->
  0 <= current_sentence_id s ->
  finish_word w s m = Ret s' m' ->
  table_inv (ws ++ words_of_runs [buf s]) s' m' /\
  buf s' = [] /\ buf_cap s' = buf_cap s /\
  total_sentences s' = total_sentences s /\
  current_sentence_id s' = current_sentence_id s /\
  total_words s' <= total_words s + buf_len s.
Proof.
  intros Hti Hbuf Hsid H. unfold finish_word, buf_len in H.
  pose proof Hti as [Hwf Hnd Hok Htot Hws Hkeys Hcnt].
  rewrite words_of_runs_singleton.
  destruct (Z.ltb_spec 0 (Z.of_nat (length (buf s)))) as [Hlen|Hlen].
  - minv. simpl.
    match goal with H : get_word_entry _ _ _ _ = _ |- _ =>
      apply get_word_entry_Ret in H as [Hwf' Hrec]; auto using c_string_of_list end.
    case_decide as Hnil; [rewrite Hnil in Hlen; simpl in Hlen; lia|].
    split; [|unfold buf_len; repeat split; simpl; (done || lia)].
    split; simpl.
    + done.
    + by eapply recorded_NoDup.
    + by apply (recorded_entry_ok _ _ _ _ (current_sentence_id s) Hrec); [lia..|].
    + erewrite recorded_total_count by eauto. lia.
    + rewrite length_app. simpl. lia.
    + intros y. rewrite (recorded_words _ _ _ _ y Hrec), Hkeys, elem_of_app,
        list_elem_of_singleton. tauto.
    + by eapply recorded_counts.
  - minv. assert (buf s = []) as -> by (destruct (buf s); [done | simpl in Hlen; lia]).
    case_decide; [|done]. rewrite app_nil_r. simpl.
    split; [done|]. unfold buf_len. simpl. repeat split; lia.
Qed.

(** A word that is finished is counted once in [total_words] and recorded
    once in the table. *)
Lemma finish_word_records w s m s' m' :
  table_wf (hash_table m) -> Forall (fun a => code a <> 0) (buf s) -> buf s <> [] ->
  finish_word w s m = Ret s' m' ->
  total_words s' = total_words s + 1 /\
  recorded (string_of_list_ascii (buf s)) (current_sentence_id s)
    (hash_table m) (hash_table m').
Proof.
  intros Hwf Hbuf Hne H0. unfold finish_word, buf_len in H0.
  destruct (Z.ltb_spec 0 (Z.of_nat (length (buf s)))) as [Hlen|Hlen].
  - minv. simpl. split; [done|].
    match goal with H : get_word_entry _ _ _ _ = _ |- _ =>
      by apply get_word_entry_Ret in H as [_ Hrec]; auto using c_string_of_list end.
  - destruct (buf s); [done | simpl in Hlen; lia].
Qed.

Lemma table_inv_step ws s s' m m' :
  table_inv ws s m ->
  hash_table m' = hash_table m ->
  total_words s' = total_words s ->
  current_sentence_id s <= current_sentence_id s' ->
  table_inv ws s' m'.
Proof.
  intros [Hwf Hnd Hok Htot Hws Hkeys Hcnt] Hm Hw Hs.
  split; rewrite ?Hm; try done; try congruence.
  eapply Forall_impl; [exact Hok|]. intros e. by apply entry_ok_mono.
Qed.

Ltac scan_lia := unfold buf_len, INITIAL_BUF_SIZE in *; simpl in *; lia.

Lemma scan_char_inv w pre s a m s' m' :
  scan_inv pre s m -> scan_char w s a m = Ret s' m' -> scan_inv (pre ++ [a]) s' m'.
Proof.
  intros [(rs & Hruns & Hti) Hbuf Hsent Hsid Hlen Hcap] H.
  unfold scan_char in H.
  pose proof (count_terminators_nonneg pre) as Hnn.
  pose proof (ti_words _ _ _ Hti) as Hwnn.
  unfold INITIAL_BUF_SIZE in Hcap |- *.
  pose proof (split_words_snoc _ (lower_char a) _ _ Hruns) as Hsnoc.
  change [lower_char a] with (lower_char <$> [a]) in Hsnoc.
  rewrite isalnum_lower_char, <- (fmap_app lower_char pre [a]) in Hsnoc.
  fold (lower_char a) in H.
  destruct (isalnum (code a)) eqn:Halnum.
  - assert (Hnz : code (lower_char a) <> 0).
    { apply isalnum_nonzero. by rewrite isalnum_lower_char. }
    unfold buf_len in *.
    destruct (Z.geb_spec (Z.of_nat (length (buf s)) + 1) (buf_cap s)); minv; simpl in *.
    + split; unfold buf_len; simpl; rewrite ?length_app; simpl.
      * exists rs. split; [done|]. by eapply table_inv_step.
      * apply Forall_app. split; [done|]. by repeat constructor.
      * rewrite count_terminators_snoc.
        assert (is_terminator (code a) = false) as ->; [|lia].
        revert Halnum. unfold isalnum, is_terminator.
        repeat match goal with |- context [?x =? ?y] => destruct (Z.eqb_spec x y) as [->|] end;
          try done; by vm_compute.
      * done.
      * scan_lia.
      * scan_lia.
    + split; unfold buf_len; simpl; rewrite ?length_app; simpl.
      * exists rs. split; [done|]. by eapply table_inv_step.
      * apply Forall_app. split; [done|]. by repeat constructor.
      * rewrite count_terminators_snoc.
        assert (is_terminator (code a) = false) as ->; [|lia].
        revert Halnum. unfold isalnum, is_terminator.
        repeat match goal with |- context [?x =? ?y] => destruct (Z.eqb_spec x y) as [->|] end;
          try done; by vm_compute.
      * done.
      * scan_lia.
      * scan_lia.
  - minv.
    match goal with H : finish_word _ _ _ = _ |- _ =>
      apply (finish_word_Ret _ _ _ _ _ _ Hti Hbuf) in H
        as (Hti' & Hb & Hc & Hts & Hcs & Htw); [|lia] end.
    rewrite <- words_of_runs_app, <- Hruns in Hti'.
    assert (Hsplit : split_words (lower_char <$> pre ++ [a]) =
                     split_words (lower_char <$> pre) ++ [[]]).
    { rewrite Hsnoc, Hruns. by rewrite <- app_assoc. }
    destruct (is_terminator (code a)) eqn:Hterm; minv; simpl in *.
    + split; simpl; rewrite ?length_app, ?count_terminators_snoc, ?Hterm, ?Hb; simpl.
      * eexists. split; [exact Hsplit|]. eapply table_inv_step; eauto. simpl. lia.
      * constructor.
      * scan_lia.
      * done.
      * unfold buf_len in *. rewrite ?Hb in *. scan_lia.
      * unfold buf_len in *. rewrite ?Hb in *. scan_lia.
    + split; simpl; rewrite ?length_app, ?count_terminators_snoc, ?Hterm, ?Hb; simpl.
      * eexists. split; [exact Hsplit|]. done.
      * constructor.
      * scan_lia.
      * scan_lia.
      * unfold buf_len in *. rewrite ?Hb in *. scan_lia.
      * unfold buf_len in *. rewrite ?Hb in *. scan_lia.
Qed.

Lemma scan_inv_init m :
  hash_table m = empty_table -> scan_inv [] (mkScan [] INITIAL_BUF_SIZE 0 0 0) m.
Proof.
  intros Hm. split; simpl; try done.
  exists []. split; [done|]. split; rewrite ?Hm, ?entries_empty_table; simpl; try done.
  - apply empty_table_wf.
  - constructor.
Qed.

Lemma main_scan_Ret w fp m s m' :
  hash_table m = empty_table -> main_scan w fp m = Ret s m' -> scanned fp s m'.
Proof.
  intros Hm H. unfold main_scan in H. minv.
  match goal with H : foldM _ _ _ _ = _ |- _ =>
    apply (foldM_inv _ scan_inv _ []) in H;
      [|intros; eapply scan_char_inv; eauto |by apply scan_inv_init] end.
  simpl in *.
  match goal with H : scan_inv _ ?s1 _ |- _ =>
    destruct H as [(rs & Hruns & Hti) Hbuf Hsent Hsid Hlen Hcap] end.
  pose proof (count_terminators_nonneg (list_ascii_of_string fp)) as Hnn.
  match goal with H : finish_word _ _ _ = _ |- _ =>
    apply (finish_word_Ret _ _ _ _ _ _ Hti Hbuf) in H
      as (Hti' & Hb & Hc & Hts & Hcs & Htw); [|lia] end.
  rewrite <- words_of_runs_app, <- Hruns in Hti'.
  fold (spec_words fp) in Hti'. unfold spec_sentences.
  match goal with H : (if ?b then _ else _) _ = _ |- _ =>
    destruct b eqn:Hb0; minv end.
  - apply andb_true_iff in Hb0 as [Hz%Z.eqb_eq Hp%Z.ltb_lt].
    split; simpl; unfold spec_sentences.
    + by eapply table_inv_step.
    + lia.
    + rewrite <- Hsent, <- Hts, Hz. simpl. by apply Z.ltb_lt in Hp as ->.
    + scan_lia.
    + scan_lia.
  - split; simpl; unfold spec_sentences.
    + done.
    + lia.
    + rewrite <- Hsent, <- Hts. by rewrite Hb0.
    + scan_lia.
    + scan_lia.
Qed.

(** No counter leaves the range of [long] or [size_t] on an input of less
    than [2^30] bytes: the counters only grow, and in the end they are
    bounded by the length [n] of the input, the capacity of the buffer by
    [max 64 (2 n)]. *)
Lemma scan_counters_bounded w fp m s m' :
  hash_table m = empty_table ->
  main_scan w fp m = Ret s m' ->
  let n := Z.of_nat (length (list_ascii_of_string fp)) in
  0 <= total_words s <= n /\
  0 <= total_sentences s <= Z.max 1 n /\
  0 <= current_sentence_id s <= n /\
  buf_cap s <= Z.max INITIAL_BUF_SIZE (2 * n) /\
  Forall (fun e => 1 <= sentence_count e <= count e /\ count e <= n /\
                   0 <= last_sentence_id e <= n) (entries (hash_table m')).
Proof.
  intros Hm Hscan n. apply (main_scan_Ret _ _ _ _ _ Hm) in Hscan.
  destruct Hscan as [[Hwf Hnd Hok Htot Hws Hkeys Hcnt] Hsid Hsent Hlen Hcap].
  pose proof (count_terminators_nonneg (list_ascii_of_string fp)) as Hnn.
  unfold spec_sentences in *. fold n in Hlen, Hcap.
  assert (Hcount : Forall (fun e => 0 <= count e) (entries (hash_table m'))).
  { eapply Forall_impl; [exact Hok|]. unfold entry_ok. intros; lia. }
  split; [lia|]. split; [destruct (_ && _); lia|]. split; [lia|]. split; [done|].
  apply Forall_forall. intros e He.
  pose proof (count_le_total_count _ _ Hcount He).
  pose proof (proj1 (Forall_forall _ _) Hok e He) as (? & ? & ?). lia.
Qed.

(** ** Collecting the entries *)

Lemma collect_chain_Ret w c array m array' m' :
  foldM (collect_entry w) c array m = Ret array' m' ->
  array' = array ++ c /\ hash_table m' = hash_table m.
Proof.
  revert array m. induction c as [|e c IH]; intros array m H; simpl in H.
  - minv. by rewrite app_nil_r.
  - unfold collect_entry at 1 in H. minv.
    apply IH in H as [-> ->]. by rewrite <- app_assoc.
Qed.

Lemma collect_chains_Ret w (t : table) array m array' m' :
  foldM (fun array c => foldM (collect_entry w) c array) t array m
    = Ret array' m' ->
  array' = array ++ entries t /\ hash_table m' = hash_table m.
Proof.
  unfold entries. revert array m.
  induction t as [|c t IH]; intros array m H; simpl in H.
  - minv. by rewrite app_nil_r.
  - minv. match goal with H : foldM (collect_entry _) _ _ _ = _ |- _ =>
      apply collect_chain_Ret in H as [-> Hm] end.
    apply IH in H as [-> ->]. simpl. by rewrite <- app_assoc.
Qed.

Lemma chains_seqZ (t : table) :
  chain t <$> seqZ 0 (Z.of_nat (length t)) = t.
Proof.
  apply list_eq. intros i. rewrite list_lookup_fmap.
  destruct (decide (i < length t)%nat) as [Hi|Hi].
  - rewrite lookup_seqZ_lt by lia. simpl. unfold chain.
    rewrite Z.add_0_l, Nat2Z.id.
    destruct (lookup_lt_is_Some_2 t i Hi) as [c ->]. done.
  - rewrite lookup_seqZ_ge by lia. simpl. symmetry. apply lookup_ge_None. lia.
Qed.

(** The entries are those of the chains [hash_table[0]], ...,
    [hash_table[HASH_SIZE - 1]]. *)
Lemma entries_by_index (t : table) :
  table_wf t -> entries t = mjoin (chain t <$> seqZ 0 HASH_SIZE).
Proof.
  intros [Hlen _]. unfold entries.
  replace HASH_SIZE with (Z.of_nat (length t)) by (rewrite Hlen; done).
  by rewrite chains_seqZ.
Qed.

Lemma main_collect_Ret w m array m' :
  main_collect w m = Ret array m' ->
  array = entries (hash_table m) /\ hash_table m' = hash_table m.
Proof.
  intros H. unfold main_collect in H. minv.
  by apply collect_chains_Ret in H as [-> ->].
Qed.

(** ** Runs in which every allocation succeeds *)

Lemma sim_refl_ret {A} (a : A) : sim (ret a) (ret a).
Proof. intros m. exists a, m. split; [done|]. by intros b m'' [= <- <-]. Qed.

Lemma sim_get_table : sim get_table get_table.
Proof. intros m. eexists _, _. split; [done|]. by intros b m'' [= <- <-]. Qed.

Lemma sim_modify_table f : sim (modify_table f) (modify_table f).
Proof. intros m. eexists _, _. split; [done|]. by intros b m'' [= <- <-]. Qed.

Lemma sim_bind {A B} (c c' : M A) (k k' : A -> M B) :
  sim c c' -> (forall a, sim (k a) (k' a)) -> sim (bind c k) (bind c' k').
Proof.
  intros Hc Hk m. destruct (Hc m) as (a & m1 & Hc' & Hca).
  destruct (Hk a m1) as (b & m2 & Hk' & Hkb).
  exists b, m2. split.
  - apply bind_Ret. eauto.
  - intros b' m'' (a' & m1' & H1 & H2)%bind_Ret.
    apply Hca in H1 as [-> ->]. by apply Hkb.
Qed.

Lemma sim_alloc {A} w w' (k k' : M A) st err :
  generous w' -> sim k k' ->
  sim (bind (malloc w) (fun p : bool => if p then k else exit st err))
      (bind (malloc w') (fun p : bool => if p then k' else exit st err)).
Proof.
  intros Hw' Hk m.
  destruct (Hk (mkMem (hash_table m) (allocs m ++ [true]))) as (a & m' & Hk' & Hka).
  exists a, m'. split.
  - apply alloc_Ret. auto.
  - intros b m'' [_ H]%alloc_Ret. by apply Hka.
Qed.

Lemma sim_if {A} (b : bool) (c1 c1' c2 c2' : M A) :
  sim c1 c1' -> sim c2 c2' -> sim (if b then c1 else c2) (if b then c1' else c2').
Proof. by destruct b. Qed.

Lemma sim_foldM {A B} (f f' : B -> A -> M B) l :
  (forall b a, sim (f b a) (f' b a)) -> forall b, sim (foldM f l b) (foldM f' l b).
Proof.
  intros Hf. induction l as [|a l IH]; intros b; simpl.
  - apply sim_refl_ret.
  - apply sim_bind; auto.
Qed.

Create HintDb sim discriminated.
#[local] Hint Resolve sim_refl_ret sim_get_table sim_modify_table sim_alloc sim_if
  sim_foldM : sim.
#[local] Hint Extern 2 (sim (bind (malloc _) _) _) => apply sim_alloc : sim.
#[local] Hint Extern 4 (sim (bind _ _) _) => apply sim_bind; [|intros ?] : sim.

Section Sim.

Context (w w' : world) (Hw' : generous w').

Lemma sim_xmalloc : sim (xmalloc w) (xmalloc w').
Proof. unfold xmalloc. auto with sim. Qed.

Lemma sim_get_word_entry wd cs : sim (get_word_entry w wd cs) (get_word_entry w' wd cs).
Proof.
  unfold get_word_entry. apply sim_bind; [apply sim_get_table|]. intros t.
  apply sim_bind; [|auto with sim].
  destruct (chain_find wd _); [apply sim_refl_ret|].
  apply sim_bind; [apply sim_xmalloc|]. intros _. auto with sim.
Qed.

Lemma sim_finish_word s : sim (finish_word w s) (finish_word w' s).
Proof.
  unfold finish_word. apply sim_if; [|apply sim_refl_ret].
  apply sim_bind; [apply sim_get_word_entry|]. intros _. apply sim_refl_ret.
Qed.

Lemma sim_scan_char s a : sim (scan_char w s a) (scan_char w' s a).
Proof.
  unfold scan_char. apply sim_if.
  - apply sim_bind; [|intros ?; apply sim_refl_ret].
    apply sim_if; [|apply sim_refl_ret]. apply sim_alloc; [done|]. apply sim_refl_ret.
  - apply sim_bind; [apply sim_finish_word|]. intros s1.
    apply sim_if; apply sim_refl_ret.
Qed.

Lemma sim_main_scan fp : sim (main_scan w fp) (main_scan w' fp).
Proof.
  unfold main_scan. apply sim_bind; [apply sim_xmalloc|]. intros _.
  apply sim_bind; [apply sim_foldM, sim_scan_char|]. intros s.
  apply sim_bind; [apply sim_finish_word|]. intros s1.
  apply sim_if; apply sim_refl_ret.
Qed.

Lemma sim_main_collect : sim (main_collect w) (main_collect w').
Proof.
  unfold main_collect. apply sim_bind; [apply sim_get_table|]. intros t.
  apply sim_foldM. intros array c. apply sim_foldM. intros array' e.
  unfold collect_entry. apply sim_alloc; [done|]. apply sim_refl_ret.
Qed.

Lemma sim_main_body `{Qsort} topic fp : sim (main_body w topic fp) (main_body w' topic fp).
Proof.
  unfold main_body. apply sim_bind; [apply sim_main_scan|]. intros s.
  apply sim_bind; [apply sim_main_collect|]. intros array.
  apply sim_alloc; [done|].
  apply sim_bind; [apply sim_get_table|]. intros t. apply sim_refl_ret.
Qed.

End Sim.

(** With an allocator that never fails, the body of [main] returns. *)
Lemma main_body_total `{Qsort} w topic fp m :
  generous w -> exists a m', main_body w topic fp m = Ret a m'.
Proof.
  intros Hw. destruct (sim_main_body w w Hw topic fp m) as (a & m' & Ha & _). eauto.
Qed.

(** A run that returns does what the run with the allocator that never
    fails does. *)
Lemma main_body_calm `{Qsort} w topic fp m a m' :
  main_body w topic fp m = Ret a m' ->
  main_body (calm EmptyString) topic fp m = Ret a m'.
Proof.
  intros H0.
  destruct (sim_main_body w (calm EmptyString) (fun _ => eq_refl) topic fp m)
    as (a0 & m0 & Ha & Hsame).
  by destruct (Hsame _ _ H0) as [-> ->].
Qed.

(** ** The top 4 *)

Lemma selected_slots sel : selected (slots sel) = sel.
Proof.
  unfold selected, slots. rewrite omap_app.
  assert (forall n, omap id (replicate n (@None WordEntry)) = []) as ->.
  { induction n; simpl; auto. }
  rewrite app_nil_r. induction sel as [|e sel IH]; [done|].
  rewrite fmap_cons. simpl. by f_equal.
Qed.

Lemma slots_insert sel e :
  (length sel < 4)%nat ->
  <[length sel := Some e]> (slots sel) = slots (sel ++ [e]).
Proof.
  intros Hlen. unfold slots.
  rewrite insert_app_r_alt by (rewrite length_fmap; lia).
  rewrite length_fmap, Nat.sub_diag, length_app. simpl.
  destruct (4 - length sel)%nat as [|k] eqn:E; [lia|].
  replace (4 - (length sel + 1))%nat with k by lia.
  simpl. rewrite fmap_app. by rewrite <- app_assoc.
Qed.

Lemma top4_loop_slots array topic_entry sel :
  (length sel <= 4)%nat ->
  top4_loop array topic_entry (slots sel) (length sel) =
  slots (sel ++ take (4 - length sel) (filter (eligible topic_entry) array)).
Proof.
  revert sel. induction array as [|e rest IH]; intros sel Hlen; cbn [top4_loop].
  - by rewrite filter_nil, take_nil, app_nil_r.
  - destruct (Nat.ltb_spec (length sel) 4) as [Hlt|Hge].
    + rewrite filter_cons.
      destruct (decide (eligible topic_entry e)) as [[Hne Hstop]|Hnel].
      * destruct (decide (Some e = topic_entry)) as [|_]; [done|]. rewrite Hstop.
        rewrite slots_insert by done.
        replace (S (length sel)) with (length (sel ++ [e]))
          by (rewrite length_app; simpl; lia).
        rewrite IH by (rewrite length_app; simpl; lia).
        f_equal. rewrite length_app. simpl.
        destruct (4 - length sel)%nat as [|k] eqn:E; [lia|].
        replace (4 - (length sel + 1))%nat with k by lia.
        simpl. by rewrite <- app_assoc.
      * destruct (decide (Some e = topic_entry)) as [|Hne]; [by apply IH|].
        destruct (is_stop_word (word e)) eqn:Hstop; [by apply IH|].
        by destruct Hnel.
    + replace (4 - length sel)%nat with 0%nat by lia.
      by rewrite take_0, app_nil_r.
Qed.

Lemma top4_loop_selected array topic_entry :
  top4_loop array topic_entry (replicate 4 None) 0 =
  slots (take 4 (filter (eligible topic_entry) array)).
Proof. apply (top4_loop_slots array topic_entry []). simpl. lia. Qed.

Lemma PRINT_LINE_top4 tw ts top4 :
  concat (map (PRINT_LINE tw ts) top4) = line_of tw ts <$> selected top4.
Proof.
  unfold selected. induction top4 as [|[e|] top4 IH]; simpl; [done| |done].
  by rewrite IH.
Qed.

Lemma rep_lines_print_report topic a :
  rep_lines (print_report topic a) =
  line_of (a_total_words a) (a_total_sentences a)
    <$> (option_list (a_topic_entry a) ++ selected (a_top4 a)).
Proof.
  unfold print_report. simpl. rewrite PRINT_LINE_top4, fmap_app.
  by destruct (a_topic_entry a).
Qed.

(** ** The body of [main] *)

Lemma scanned_mem text s m m' :
  scanned text s m -> hash_table m' = hash_table m -> scanned text s m'.
Proof.
  intros [Hti ? ? ?] Hm. split; try done.
  by apply (table_inv_step _ s s m m').
Qed.

Lemma main_body_Ret `{Qsort} w topic fp m a m' :
  hash_table m = empty_table ->
  main_body w topic fp m = Ret a m' ->
  exists s,
    scanned fp s m' /\
    a_total_words a = total_words s /\
    a_total_sentences a = total_sentences s /\
    a_array a = qsort (entries (hash_table m')) cmp_wordptr_count /\
    a_topic_entry a = lookup_word (lower_string topic) (hash_table m') /\
    a_top4 a = slots (take 4 (filter (eligible (a_topic_entry a)) (a_array a))).
Proof.
  intros Hm H0. unfold main_body in H0. minv.
  match goal with H : main_scan _ _ _ = _ |- _ =>
    apply main_scan_Ret in H as Hsc; [|done] end.
  match goal with H : main_collect _ _ = _ |- _ =>
    apply main_collect_Ret in H as [-> Ht] end.
  eexists. simpl. rewrite Ht. split; [|repeat split].
  - eapply scanned_mem; eauto.
  - apply top4_loop_selected.
Qed.

(** ** The ways out of the program *)

Lemma traced_ret {A} (a : A) : alloc_traced (ret a).
Proof. intros m. exists 0%nat. simpl. by rewrite app_nil_r. Qed.

Lemma traced_get_table : alloc_traced get_table.
Proof. intros m. exists 0%nat. simpl. by rewrite app_nil_r. Qed.

Lemma traced_modify_table f : alloc_traced (modify_table f).
Proof. intros m. exists 0%nat. simpl. by rewrite app_nil_r. Qed.

Lemma traced_bind {A B} (c : M A) (k : A -> M B) :
  alloc_traced c -> (forall a, alloc_traced (k a)) -> alloc_traced (bind c k).
Proof.
  intros Hc Hk m. unfold bind. specialize (Hc m).
  destruct (c m) as [a m1|st err m1]; [|done].
  destruct Hc as [k1 H1]. specialize (Hk a m1).
  destruct (k a m1) as [b m2|st err m2].
  - destruct Hk as [k2 H2]. exists (k1 + k2)%nat.
    by rewrite H2, H1, replicate_add, app_assoc.
  - destruct Hk as (-> & -> & k2 & H2). repeat split. exists (k1 + k2)%nat.
    by rewrite H2, H1, replicate_add, <- !app_assoc.
Qed.

Lemma traced_alloc {A} w (k : M A) :
  alloc_traced k ->
  alloc_traced (bind (malloc w)
                  (fun p : bool => if p then k else exit EXIT_FAILURE out_of_memory)).
Proof.
  intros Hk m. unfold bind, malloc, exit.
  destruct (alloc_ok w (length (allocs m))).
  - specialize (Hk (mkMem (hash_table m) (allocs m ++ [true]))). simpl in Hk.
    destruct (k _) as [a m'|st err m'].
    + destruct Hk as [n Hn]. exists (S n). by rewrite Hn, <- app_assoc.
    + destruct Hk as (-> & -> & n & Hn). repeat split. exists (S n).
      by rewrite Hn, <- !app_assoc.
  - repeat split. by exists 0%nat.
Qed.

Lemma traced_if {A} (b : bool) (c1 c2 : M A) :
  alloc_traced c1 -> alloc_traced c2 -> alloc_traced (if b then c1 else c2).
Proof. by destruct b. Qed.

Lemma traced_foldM {A B} (f : B -> A -> M B) l :
  (forall b a, alloc_traced (f b a)) -> forall b, alloc_traced (foldM f l b).
Proof.
  intros Hf. induction l as [|a l IH]; intros b; simpl.
  - apply traced_ret.
  - apply traced_bind; auto.
Qed.

Section Traced.

Context (w : world).

Lemma traced_xmalloc : alloc_traced (xmalloc w).
Proof. unfold xmalloc. apply traced_alloc, traced_ret. Qed.

Lemma traced_get_word_entry wd cs : alloc_traced (get_word_entry w wd cs).
Proof.
  unfold get_word_entry. apply traced_bind; [apply traced_get_table|]. intros t.
  apply traced_bind.
  - destruct (chain_find wd _); [apply traced_ret|].
    apply traced_bind; [apply traced_xmalloc|]. intros _.
    apply traced_alloc, traced_bind; [apply traced_modify_table|].
    intros _. apply traced_ret.
  - intros pos. apply traced_bind; [apply traced_modify_table|].
    intros _. apply traced_ret.
Qed.

Lemma traced_finish_word s : alloc_traced (finish_word w s).
Proof.
  unfold finish_word. apply traced_if; [|apply traced_ret].
  apply traced_bind; [apply traced_get_word_entry|]. intros _. apply traced_ret.
Qed.

Lemma traced_scan_char s a : alloc_traced (scan_char w s a).
Proof.
  unfold scan_char. apply traced_if.
  - apply traced_bind; [|intros ?; apply traced_ret].
    apply traced_if; [|apply traced_ret]. apply traced_alloc, traced_ret.
  - apply traced_bind; [apply traced_finish_word|]. intros s1.
    apply traced_if; apply traced_ret.
Qed.

Lemma traced_main_scan fp : alloc_traced (main_scan w fp).
Proof.
  unfold main_scan. apply traced_bind; [apply traced_xmalloc|]. intros _.
  apply traced_bind; [apply traced_foldM, traced_scan_char|]. intros s.
  apply traced_bind; [apply traced_finish_word|]. intros s1.
  apply traced_if; apply traced_ret.
Qed.

Lemma traced_main_collect : alloc_traced (main_collect w).
Proof.
  unfold main_collect. apply traced_bind; [apply traced_get_table|]. intros t.
  apply traced_foldM. intros array c. apply traced_foldM. intros array' e.
  unfold collect_entry. apply traced_alloc, traced_ret.
Qed.

Lemma traced_main_body `{Qsort} topic fp : alloc_traced (main_body w topic fp).
Proof.
  unfold main_body. apply traced_bind; [apply traced_main_scan|]. intros s.
  apply traced_bind; [apply traced_main_collect|]. intros array.
  apply traced_alloc, traced_bind; [apply traced_get_table|].
  intros t. apply traced_ret.
Qed.

(** The run on an opened input. *)
Lemma run_body_outcome `{Qsort} topic fp :
  (exists a m, main_body w topic fp initial = Ret a m /\
     run_body w topic fp =
       mkOutcome EXIT_SUCCESS (Some (print_report topic a)) [] (allocs m) /\
     Forall (fun p => p = true) (allocs m)) \/
  (exists tr,
     run_body w topic fp =
       mkOutcome EXIT_FAILURE None [out_of_memory] (tr ++ [false]) /\
     Forall (fun p => p = true) tr).
Proof.
  unfold run_body.
  pose proof (traced_main_body topic fp initial) as Htr.
  destruct (main_body w topic fp initial) as [a m|st err m].
  - left. exists a, m. repeat split. destruct Htr as [k ->]. simpl.
    apply Forall_replicate. done.
  - right. destruct Htr as (-> & -> & k & ->). simpl.
    exists (replicate k true). split; [done|]. by apply Forall_replicate.
Qed.

End Traced.

(** ** Auxiliary facts on the table and the run *)

Lemma Forall_entries (P : WordEntry -> Prop) (t : table) :
  Forall P (entries t) <-> Forall (Forall P) t.
Proof.
  unfold entries. induction t as [|c t IH]; simpl.
  - split; constructor.
  - rewrite Forall_app, Forall_cons, IH. done.
Qed.

Lemma Forall_entries_alter (P : WordEntry -> Prop) f h (t : table) :
  (forall c, Forall P c -> Forall P (f c)) ->
  Forall P (entries t) -> Forall P (entries (alter f h t)).
Proof.
  intros Hf. rewrite !Forall_entries. intros Ht.
  apply Forall_alter; auto.
Qed.

Lemma get_word_entry_Forall w (P : WordEntry -> Prop) wd cs m p m' :
  (forall e, P e -> P (update_counts e cs)) ->
  P (fresh_entry wd) ->
  Forall P (entries (hash_table m)) ->
  get_word_entry w wd cs m = Ret p m' ->
  Forall P (entries (hash_table m')).
Proof.
  intros Hupd Hfresh Ht H0. unfold get_word_entry in H0. minv.
  assert (Hpos : forall pos c, Forall P c ->
            Forall P (alter (fun e => update_counts e cs) pos c)).
  { intros pos c Hc. apply Forall_alter; auto. }
  destruct (chain_find wd _) as [pos|]; minv; simpl.
  - apply Forall_entries_alter; auto.
  - apply Forall_entries_alter; [auto|].
    apply Forall_entries_alter; [|done]. intros c Hc. by constructor.
Qed.

Lemma chain_lookup_elem wd c e : chain_lookup wd c = Some e -> e ∈ c.
Proof.
  induction c as [|e0 c IH]; simpl; [discriminate|].
  destruct (strcmp (word e0) wd =? 0).
  - intros [= <-]. apply list_elem_of_here.
  - intros ?%IH. by apply list_elem_of_further.
Qed.

Lemma chain_entries (t : table) h e : e ∈ chain t h -> e ∈ entries t.
Proof.
  unfold chain, entries. destruct (t !! Z.to_nat h) as [c|] eqn:E; simpl.
  - intros He. apply list_elem_of_join. exists c. split; [done|].
    by eapply list_elem_of_lookup_2.
  - by intros ?%elem_of_nil.
Qed.

Lemma lookup_word_elem (t : table) wd e : lookup_word wd t = Some e -> e ∈ entries t.
Proof. intros H%chain_lookup_elem. by eapply chain_entries. Qed.

Lemma entries_nil_of_keys (t : table) :
  (forall x, x ∈ word <$> entries t <-> x ∈ @nil string) -> entries t = [].
Proof.
  intros Hk. destruct (entries t) as [|e l]; [done|].
  exfalso. apply (elem_of_nil (word e)), Hk. simpl. apply list_elem_of_here.
Qed.

Lemma chain_lookup_find wd c :
  chain_lookup wd c = chain_find wd c ≫= (fun pos => c !! pos).
Proof.
  induction c as [|e c IH]; simpl; [done|].
  destruct (strcmp (word e) wd =? 0); [done|].
  rewrite IH. by destruct (chain_find wd c).
Qed.

Lemma chain_lookup_alter wd c pos (f : WordEntry -> WordEntry) :
  (forall e, word (f e) = word e) ->
  chain_find wd c = Some pos ->
  chain_lookup wd (alter f pos c) = f <$> chain_lookup wd c.
Proof.
  intros Hf. revert pos. induction c as [|e c IH]; intros pos H; simpl in *; [done|].
  destruct (strcmp (word e) wd =? 0) eqn:E.
  - injection H as <-. simpl. by rewrite Hf, E.
  - destruct (chain_find wd c) as [p|]; [|done]. injection H as <-.
    simpl. rewrite E. by apply IH.
Qed.

Lemma chain_alter (t : table) f h :
  (Z.to_nat h < length t)%nat ->
  chain (alter f (Z.to_nat h) t) h = f (chain t h).
Proof.
  intros Hh. unfold chain. rewrite list_lookup_alter_eq.
  by destruct (lookup_lt_is_Some_2 t _ Hh) as [c ->].
Qed.

(** The table of a run is the table left by the reading loop, which can
    be computed with the allocator that never fails. *)
Lemma main_body_scan `{Qsort} w topic fp m a m' :
  main_body w topic fp m = Ret a m' ->
  exists s m1,
    main_scan (calm EmptyString) fp m = Ret s m1 /\
    hash_table m' = hash_table m1 /\
    a_total_words a = total_words s /\
    a_total_sentences a = total_sentences s.
Proof.
  intros H0. unfold main_body in H0. minv.
  match goal with H : main_collect _ _ = _ |- _ =>
    apply main_collect_Ret in H as [-> Ht] end.
  match goal with H : main_scan _ _ _ = Ret ?s ?m1 |- _ =>
    exists s, m1; rename H into Hscan end.
  simpl. split; [|by rewrite Ht].
  destruct (sim_main_scan w (calm EmptyString) (fun _ => eq_refl) fp m)
    as (s0 & m0 & Hs0 & Hsame).
  by destruct (Hsame _ _ Hscan) as [-> ->].
Qed.

(** What a call of [get_word_entry] does to the entry of its word. *)
Lemma get_word_entry_lookup w wd cs m p m' :
  length (hash_table m) = Z.to_nat HASH_SIZE ->
  get_word_entry w wd cs m = Ret p m' ->
  lookup_word wd (hash_table m') =
  Some (update_counts (default (fresh_entry wd) (lookup_word wd (hash_table m))) cs).
Proof.
  intros Hlen H0. unfold get_word_entry in H0.
  pose proof (hash_word_range wd) as Hh.
  assert (Hlt : (Z.to_nat (hash_word wd) < length (hash_table m))%nat) by lia.
  unfold lookup_word. minv.
  destruct (chain_find wd _) as [pos|] eqn:Hfind; minv; simpl.
  - rewrite chain_alter by done.
    rewrite (chain_lookup_alter wd _ pos _ (fun e => word_update_counts e cs) Hfind).
    rewrite !chain_lookup_find, Hfind. simpl.
    destruct (_ !! pos) eqn:E; [done|].
    exfalso. revert Hfind E. generalize (chain (hash_table m) (hash_word wd)).
    intros c. revert pos. induction c as [|e c IH]; intros pos; simpl; [done|].
    destruct (strcmp (word e) wd =? 0); [by intros [= <-]|].
    destruct (chain_find wd c) as [q|]; [|done]. intros [= <-]. simpl. by apply IH.
  - rewrite list_alter_alter_eq, chain_alter by done. simpl.
    rewrite word_update_counts. simpl. rewrite strcmp_refl. simpl.
    by rewrite chain_lookup_find, Hfind.
Qed.

(** The entries of the table of a run are told apart by their words. *)
Lemma NoDup_fmap_eq {A B} (f : A -> B) (l : list A) x y :
  NoDup (f <$> l) -> x ∈ l -> y ∈ l -> f x = f y -> x = y.
Proof.
  induction l as [|z l IH]; simpl; intros Hnd Hx Hy Hf.
  - by apply elem_of_nil in Hx.
  - apply NoDup_cons in Hnd as [Hz Hnd].
    apply elem_of_cons in Hx as [->|Hx]; apply elem_of_cons in Hy as [->|Hy]; auto.
    + destruct Hz. rewrite Hf. by apply list_elem_of_fmap_2.
    + destruct Hz. rewrite <- Hf. by apply list_elem_of_fmap_2.
Qed.

Lemma entries_distinct `{Qsort} w topic text a m e1 e2 :
  main_body w topic text initial = Ret a m ->
  e1 ∈ entries (hash_table m) -> e2 ∈ entries (hash_table m) ->
  word e1 = word e2 -> e1 = e2.
Proof.
  intros Hrun.
  destruct (main_body_Ret w topic text initial a m eq_refl Hrun) as (s & Hsc & _).
  apply NoDup_fmap_eq, (ti_nodup _ _ _ (sc_table _ _ _ Hsc)).
Qed.

(** ** The order of the sorted array *)

Lemma cmp_wordptr_count_le a b :
  cmp_le cmp_wordptr_count a b <-> count b <= count a.
Proof.
  unfold cmp_le, cmp_wordptr_count.
  destruct (Z.ltb_spec (count a) (count b)), (Z.ltb_spec (count b) (count a)); lia.
Qed.

Lemma cmp_wordptr_count_consistent : consistent cmp_wordptr_count.
Proof.
  split.
  - intros a b. rewrite !cmp_wordptr_count_le. lia.
  - intros a b c. rewrite !cmp_wordptr_count_le. lia.
Qed.

Lemma StronglySorted_sublist {A} (R : relation A) (l1 l2 : list A) :
  l1 `sublist_of` l2 -> StronglySorted R l2 -> StronglySorted R l1.
Proof.
  induction 1 as [|x l1 l2 Hsub IH|x l1 l2 Hsub IH]; intros Hs.
  - constructor.
  - apply StronglySorted_cons in Hs as [Hx Hs].
    apply StronglySorted_cons. split; [|auto].
    apply Forall_forall. intros y Hy.
    eapply (proj1 (Forall_forall _ _) Hx), elem_of_sublist; eauto.
  - apply StronglySorted_cons in Hs as [_ Hs]. auto.
Qed.

Section Selection.

Context (array : list WordPtr) (topic_entry : option WordEntry).
Context (Hsorted : StronglySorted (cmp_le cmp_wordptr_count) array).

Let pool := filter (eligible topic_entry) array.
Let sel := take 4 pool.

Lemma sel_sublist : sel `sublist_of` array.
Proof.
  unfold sel, pool. etransitivity; [apply sublist_take | apply sublist_filter].
Qed.

Lemma sel_length : (length sel <= 4)%nat.
Proof. unfold sel. rewrite length_take. lia. Qed.

Lemma sel_eligible e : e ∈ sel -> e ∈ array /\ eligible topic_entry e.
Proof.
  unfold sel, pool. intros He.
  assert (e ∈ filter (eligible topic_entry) array) as Hf.
  { eapply elem_of_sublist; [exact He | apply sublist_take]. }
  apply list_elem_of_filter in Hf. tauto.
Qed.

Lemma sel_sorted : StronglySorted (fun x y => count y <= count x) sel.
Proof.
  assert (StronglySorted (cmp_le cmp_wordptr_count) sel) as Hs.
  { eapply StronglySorted_sublist; [apply sel_sublist | done]. }
  clear -Hs. induction Hs as [|x l Hs IH Hx]; constructor; auto.
  eapply Forall_impl; [exact Hx|]. intros y. by rewrite cmp_wordptr_count_le.
Qed.

Lemma sel_maximal e s :
  e ∈ array -> eligible topic_entry e -> e ∉ sel -> s ∈ sel -> count e <= count s.
Proof.
  intros He Hel Hnot Hs.
  assert (e ∈ pool) as Hp by (by apply list_elem_of_filter).
  assert (StronglySorted (cmp_le cmp_wordptr_count) pool) as Hps.
  { eapply StronglySorted_sublist; [apply sublist_filter | done]. }
  rewrite <- (take_drop 4 pool) in Hp, Hps.
  apply elem_of_app in Hp as [Hp|Hp]; [done|].
  apply cmp_wordptr_count_le.
  eapply StronglySorted_app_1_elem_of; eauto.
Qed.

End Selection.

(** ** The topic word *)

Lemma tolower_nonzero c : 0 <= c -> c <> 0 -> tolower c <> 0.
Proof. unfold tolower. destruct (_ && _); lia. Qed.

Lemma c_string_lower_string s : c_string s -> c_string (lower_string s).
Proof.
  unfold c_string, lower_string. rewrite list_ascii_of_string_of_list_ascii.
  induction 1 as [|a l Ha _ IH]; simpl; constructor; [|done].
  fold (lower_char a). rewrite code_lower_char.
  apply tolower_nonzero; [|done]. apply code_range.
Qed.

Section TopicAbsent.

Context `{Qsort} (w : world) (topic text : string) (a : analysis) (m : mem).
Context (Htopic : c_string topic).
Context (Habsent : lower_string topic ∉ spec_words text).
Context (Hrun : main_body w topic text initial = Ret a m).

Lemma absent_entries e : e ∈ entries (hash_table m) -> word e <> lower_string topic.
Proof.
  destruct (main_body_Ret w topic text initial a m eq_refl Hrun) as (s & Hsc & _).
  intros He Hw. apply Habsent. rewrite <- Hw.
  apply (ti_keys _ _ _ (sc_table _ _ _ Hsc)). by apply list_elem_of_fmap_2.
Qed.

Lemma absent_topic_entry : a_topic_entry a = None.
Proof.
  destruct (main_body_Ret w topic text initial a m eq_refl Hrun)
    as (s & Hsc & _ & _ & _ & Hte & _).
  rewrite Hte. destruct (lookup_word _ _) as [e|] eqn:E; [|done].
  apply lookup_word_Some in E as [He Hw].
  - by destruct (absent_entries e He).
  - apply (ti_wf _ _ _ (sc_table _ _ _ Hsc)).
  - by apply c_string_lower_string.
Qed.

Lemma absent_selected e : e ∈ selected (a_top4 a) -> word e <> lower_string topic.
Proof.
  destruct (main_body_Ret w topic text initial a m eq_refl Hrun)
    as (s & Hsc & _ & _ & Harr & _ & Htop4).
  rewrite Htop4, selected_slots. intros [He _]%sel_eligible.
  apply absent_entries. rewrite Harr in He. by rewrite qsort_perm in He.
Qed.

End TopicAbsent.

(** ** The percentages *)

Lemma percentage_range n total :
  0 <= n <= total -> (0 <= percentage n total <= 100)%Q.
Proof.
  intros Hn. unfold percentage.
  destruct (Z.ltb_spec 0 total) as [Hpos|Hle]; [|by split].
  destruct total as [|p|p]; try lia.
  unfold Qle, Qdiv, Qmult, Qinv, inject_Z. simpl. split; nia.
Qed.

Lemma percentage_nonneg n total : 0 <= n -> (0 <= percentage n total)%Q.
Proof.
  intros Hn. unfold percentage.
  destruct (Z.ltb_spec 0 total) as [Hpos|Hle]; [|done].
  destruct total as [|p|p]; try lia.
  unfold Qle, Qdiv, Qmult, Qinv, inject_Z. simpl. nia.
Qed.

(** The percentage of words of every line is in [0, 100]; the sentence
    count of a line, which counts the sentence begun after the last
    terminator too, is at most [total_sentences + 1]. *)
Lemma report_lines_bounds `{Qsort} w topic text a m l :
  main_body w topic text initial = Ret a m ->
  l ∈ rep_lines (print_report topic a) ->
  (0 <= l_pct_w l <= 100)%Q /\ (0 <= l_pct_s l)%Q /\
  0 <= l_sentence_count l <= l_total_sentences l + 1.
Proof.
  intros Hrun Hl.
  destruct (main_body_Ret w topic text initial a m eq_refl Hrun)
    as (s & Hsc & Hw & Hs & Harr & Htopic & Htop4).
  pose proof (sc_table _ _ _ Hsc) as [Hwf Hnd Hok Htot Hws Hkeys Hcnt].
  assert (Hent : forall e, e ∈ option_list (a_topic_entry a) ++ selected (a_top4 a) ->
                           e ∈ entries (hash_table m)).
  { intros e [He|He]%elem_of_app.
    - rewrite Htopic in He. destruct (lookup_word _ _) as [e'|] eqn:E; simpl in He.
      + apply list_elem_of_singleton in He as ->. by eapply lookup_word_elem.
      + by apply elem_of_nil in He.
    - rewrite Htop4, selected_slots in He. apply sel_eligible in He as [He _].
      rewrite Harr in He. by rewrite qsort_perm in He. }
  rewrite rep_lines_print_report in Hl.
  apply list_elem_of_fmap in Hl as (e & -> & He). apply Hent in He.
  pose proof (proj1 (Forall_forall _ _) Hok e He) as (Hc & Hlast & Hsc1).
  assert (count e <= a_total_words a).
  { rewrite Hw, <- Htot. apply count_le_total_count; [|done].
    eapply Forall_impl; [exact Hok|]. unfold entry_ok. intros; lia. }
  assert (spec_sentences text <= a_total_sentences a).
  { rewrite Hs, (sc_sentences _ _ _ Hsc). destruct (_ && _) eqn:E; [|lia].
    apply andb_true_iff in E as [->%Z.eqb_eq _]. lia. }
  rewrite (sc_sid _ _ _ Hsc) in Hlast. simpl.
  split; [apply percentage_range; lia|].
  split; [apply percentage_nonneg; lia|]. lia.
Qed.

(** ** The terminators and the lower-cased topic *)

Lemma is_terminator_spec a : is_terminator (code a) = true <-> a ∈ terminators.
Proof.
  unfold is_terminator, terminators.
  rewrite !orb_true_iff, !Z.eqb_eq, !elem_of_cons, elem_of_nil. split.
  - intros [[E|E]|E]; apply code_inj in E; tauto.
  - intros [->|[->|[->|[]]]]; tauto.
Qed.

Lemma terminator_count_spec text : terminator_count text = spec_sentences text.
Proof.
  unfold terminator_count, spec_sentences, count_terminators. do 2 f_equal.
  apply list_filter_iff. intros a. symmetry. apply is_terminator_spec.
Qed.

Lemma lower_case_spec s : lower_string s = lower_case s.
Proof. done. Qed.

Lemma lookup_word_found (t : table) e :
  table_wf t -> NoDup (word <$> entries t) ->
  e ∈ entries t -> lookup_word (word e) t = Some e.
Proof.
  intros Hwf Hnd He.
  assert (is_Some (lookup_word (word e) t)) as [e' He'].
  { eapply chain_lookup_is_Some; [|done]. by apply elem_of_entries. }
  rewrite He'. f_equal.
  apply lookup_word_Some in He' as [Hin Hw]; [|done|by apply (entries_c_string t)].
  by apply (NoDup_fmap_eq word (entries t)).
Qed.

(** * The properties C1 to C10 *)

(** C1 fails on the code: on the text [cat. cat] the word [cat] is counted
    in two sentences (the second one has no terminator) while
    [total_sentences] is 1, so the line of the topic [cat] shows 2 sentences
    out of 1, that is 200 percent of the sentences. *)
Lemma sentence_percentage_exceeds_100 :
  stdout (main (calm "cat. cat") ["topic_index"; "cat"]%string) =
    Some (mkReport "cat" 2 1 [mkLine "cat" 2 (200 # 2) 2 1 (200 # 1)]) /\
  ~ (200 # 1 <= 100)%Q.
Proof.
  split; [vm_compute; reflexivity|].
  unfold Qle. simpl. lia.
Qed.

(** C2, as the code has it: when the lower-cased topic word is not a word
    of the text, the run ends normally (with status 0 when no allocation
    fails) and the report has no line for the topic word: there is no topic
    entry, the line of the topic is left out, and the lines printed are
    those of the selected other words. *)
Theorem topic_absent_row_omitted `{Qsort} w topic text :
  c_string topic ->
  lower_string topic ∉ spec_words text ->
  (generous w -> status (run_body w topic text) = EXIT_SUCCESS) /\
  (forall a m,
      main_body w topic text initial = Ret a m ->
      run_body w topic text =
        mkOutcome EXIT_SUCCESS (Some (print_report topic a)) [] (allocs m) /\
      a_topic_entry a = None /\
      rep_lines (print_report topic a) =
        line_of (a_total_words a) (a_total_sentences a) <$> selected (a_top4 a) /\
      forall l, l ∈ rep_lines (print_report topic a) -> l_word l <> lower_string topic).
Proof.
  intros Htopic Habsent. split.
  - intros Hw. destruct (main_body_total w topic text initial Hw) as (a & m & Hrun).
    unfold run_body. by rewrite Hrun.
  - intros a m Hrun.
    pose proof (absent_topic_entry w topic text a m Htopic Habsent Hrun) as Hte.
    assert (Hlines : rep_lines (print_report topic a) =
              line_of (a_total_words a) (a_total_sentences a) <$> selected (a_top4 a)).
    { by rewrite rep_lines_print_report, Hte. }
    split; [|split; [done|split; [done|]]].
    + unfold run_body. by rewrite Hrun.
    + rewrite Hlines. intros l (e & -> & He)%list_elem_of_fmap. simpl.
      by eapply absent_selected.
Qed.

Lemma topic_absent_row_omitted_witness :
  exists a m,
    main_body (calm EmptyString) "cat" "dog." initial = Ret a m /\
    a_topic_entry a = None /\
    rep_lines (print_report "cat" a) = [mkLine "dog" 1 100 1 1 100].
Proof.
  eexists _, _. split; [vm_compute; reflexivity|]. split; [|reflexivity].
  eapply (proj2 (topic_absent_row_omitted (calm EmptyString) "cat" "dog." _ _)).
  vm_compute. reflexivity.
  Unshelve.
  - unfold c_string. simpl. repeat constructor; vm_compute; discriminate.
  - vm_compute. intros Hin. repeat (apply elem_of_cons in Hin as [Hin|Hin]; [discriminate Hin|]).
    by apply elem_of_nil in Hin.
Defined.

(** C2, as stated, fails: with topic [cat] on the text [dog.] the run ends
    normally and the only line of the report is that of [dog]; no line shows
    zero counts for [cat]. *)
Lemma topic_absent_no_zero_row :
  ("cat"%string ∉ spec_words "dog.") /\
  status (main (calm "dog.") ["topic_index"; "cat"]%string) = EXIT_SUCCESS /\
  exists r,
    stdout (main (calm "dog.") ["topic_index"; "cat"]%string) = Some r /\
    rep_lines r = [mkLine "dog" 1 100 1 1 100] /\
    ~ exists l, l ∈ rep_lines r /\ zero_row "cat" l.
Proof.
  split; [|split; [reflexivity|]].
  - vm_compute. intros Hin. repeat (apply elem_of_cons in Hin as [Hin|Hin]; [discriminate Hin|]).
    by apply elem_of_nil in Hin.
  - eexists. split; [vm_compute; reflexivity|]. split; [reflexivity|].
    intros (l & Hl & Hw & _). simpl in Hl.
    apply list_elem_of_singleton in Hl. subst l. discriminate Hw.
Qed.

(** C3: for every entry of the final table [sentence_count <= count], and
    every call of [get_word_entry] keeps this true of all entries. *)
Theorem sentence_count_le_count `{Qsort} w :
  (forall topic text a m,
      main_body w topic text initial = Ret a m ->
      Forall (fun e => sentence_count e <= count e) (entries (hash_table m))) /\
  (forall wd cs m p m',
      Forall (fun e => sentence_count e <= count e) (entries (hash_table m)) ->
      get_word_entry w wd cs m = Ret p m' ->
      Forall (fun e => sentence_count e <= count e) (entries (hash_table m'))).
Proof.
  split.
  - intros topic text a m Hrun.
    destruct (main_body_Ret w topic text initial a m eq_refl Hrun) as (s & Hsc & _).
    eapply Forall_impl; [exact (ti_entries _ _ _ (sc_table _ _ _ Hsc))|].
    unfold entry_ok. intros; lia.
  - intros wd cs m p m' Hm Hcall.
    eapply get_word_entry_Forall; [| |exact Hm|exact Hcall]; simpl.
    + intros e He. rewrite count_update_counts, sentence_count_update_counts.
      case_decide; lia.
    + done.
Qed.

Lemma sentence_count_le_count_witness :
  exists a m,
    main_body (calm EmptyString) "cat" demo_text initial = Ret a m /\
    Forall (fun e => sentence_count e <= count e) (entries (hash_table m)).
Proof.
  eexists _, _. split; [vm_compute; reflexivity|].
  eapply (proj1 (sentence_count_le_count (calm EmptyString)) "cat"%string demo_text).
  vm_compute. reflexivity.
Defined.

(** C4: a call of [get_word_entry] adds 1 to the count of the entry of its
    word (created with zero counts and last sentence -1 when the word is
    new), adds 1 to its sentence count only when the sentence id is not the
    last one seen, and stores the sentence id; so no entry has a sentence
    count above the number of sentences begun.  On [dog dog dog.] the entry
    of [dog] has count 3 and sentence count 1; on [Cats cats CATS.] the only
    entry is that of [cats], with count 3 and sentence count 1. *)
Theorem get_word_entry_counts `{Qsort} w :
  (forall wd cs m p m',
      length (hash_table m) = Z.to_nat HASH_SIZE ->
      get_word_entry w wd cs m = Ret p m' ->
      let old := default (fresh_entry wd) (lookup_word wd (hash_table m)) in
      lookup_word wd (hash_table m') =
      Some (mkWordEntry (word old) (count old + 1)
              (if decide (last_sentence_id old = cs)
               then sentence_count old else sentence_count old + 1)
              cs)) /\
  (forall topic text a m,
      main_body w topic text initial = Ret a m ->
      Forall (fun e => sentence_count e <= spec_sentences text + 1)
        (entries (hash_table m))) /\
  (forall topic a m,
      main_body w topic "dog dog dog." initial = Ret a m ->
      lookup_word "dog" (hash_table m) = Some (mkWordEntry "dog" 3 1 0)) /\
  (forall topic a m,
      main_body w topic "Cats cats CATS." initial = Ret a m ->
      entries (hash_table m) = [mkWordEntry "cats" 3 1 0]).
Proof.
  repeat split.
  - intros wd cs m p m' Hlen Hcall old.
    rewrite (get_word_entry_lookup _ _ _ _ _ _ Hlen Hcall). fold old.
    f_equal. unfold update_counts. simpl.
    destruct (decide (last_sentence_id old = cs)) as [->|Hne].
    + by rewrite decide_False by tauto.
    + by rewrite decide_True by done.
  - intros topic text a m Hrun.
    destruct (main_body_Ret w topic text initial a m eq_refl Hrun) as (s & Hsc & _).
    eapply Forall_impl; [exact (ti_entries _ _ _ (sc_table _ _ _ Hsc))|].
    unfold entry_ok. rewrite (sc_sid _ _ _ Hsc). intros; lia.
  - intros topic a m (s & m1 & Hscan & -> & _)%main_body_scan.
    vm_compute in Hscan. injection Hscan as _ <-. reflexivity.
  - intros topic a m (s & m1 & Hscan & Ht & _)%main_body_scan.
    vm_compute in Hscan. injection Hscan as _ <-. unfold entries. rewrite Ht.
    reflexivity.
Qed.

Lemma get_word_entry_counts_witness :
  exists p m',
    get_word_entry (calm EmptyString) "dog" 0 initial = Ret p m' /\
    lookup_word "dog" (hash_table m') = Some (mkWordEntry "dog" 1 1 0).
Proof.
  eexists _, _. split; [vm_compute; reflexivity|].
  etransitivity.
  - eapply (proj1 (get_word_entry_counts (calm EmptyString)) "dog"%string 0 initial).
    + reflexivity.
    + vm_compute. reflexivity.
  - reflexivity.
Defined.

(** C5: [total_sentences] is the number of the characters [.], [!] and [?]
    of the text, each one counted, also when they follow one another,
    except that it is 1 for a text with a word and no terminator. *)
Theorem total_sentences_counts_terminators `{Qsort} w topic text a m :
  main_body w topic text initial = Ret a m ->
  a_total_sentences a =
    (if decide (terminator_count text = 0 /\ spec_words text <> [])
     then 1 else terminator_count text) /\
  spec_sentences text = terminator_count text.
Proof.
  intros Hrun. rewrite terminator_count_spec. split; [|done].
  destruct (main_body_Ret w topic text initial a m eq_refl Hrun)
    as (s & Hsc & _ & -> & _).
  rewrite (sc_sentences _ _ _ Hsc).
  pose proof (ti_words _ _ _ (sc_table _ _ _ Hsc)) as Hw.
  destruct (Z.eqb_spec (spec_sentences text) 0) as [Hz|Hz]; simpl.
  - destruct (Z.ltb_spec 0 (total_words s)) as [Hp|Hp].
    + rewrite decide_True; [done|]. split; [done|].
      intros Hnil. rewrite Hnil in Hw. simpl in Hw. lia.
    + rewrite decide_False; [done|]. intros [_ Hne].
      destruct (spec_words text); [done|]. simpl in Hw. lia.
  - rewrite decide_False; [done|]. tauto.
Qed.

Lemma total_sentences_counts_terminators_witness :
  (exists a m,
     main_body (calm EmptyString) "wait" "Wait... What?! No." initial = Ret a m /\
     a_total_sentences a = 6) /\
  (exists a m,
     main_body (calm EmptyString) "hello" "hello world" initial = Ret a m /\
     a_total_sentences a = 1).
Proof.
  split.
  - eexists _, _. split; [vm_compute; reflexivity|].
    etransitivity.
    + eapply (total_sentences_counts_terminators (calm EmptyString) "wait"
                "Wait... What?! No.").
      vm_compute. reflexivity.
    + reflexivity.
  - eexists _, _. split; [vm_compute; reflexivity|].
    etransitivity.
    + eapply (total_sentences_counts_terminators (calm EmptyString) "hello" "hello world").
      vm_compute. reflexivity.
    + reflexivity.
Defined.

(** Consecutive terminators are counted one by one. *)
Example spec_sentences_consecutive : spec_sentences "Wait... What?!" = 5.
Proof. reflexivity. Qed.

(** C6: on [The cat sat. The cat ran. The dog slept.] with topic [cat]
    there are 9 words and 3 sentences; the entry of [cat] has count 2 and
    sentence count 2; [the] has count 3, the highest of the table, and is
    not selected, being a stop word; [dog], [sat], [ran] and [slept] have
    count 1 each, and they are the four selected entries. *)
Theorem cat_example `{Qsort} w a m :
  main_body w "cat" demo_text initial = Ret a m ->
  a_total_words a = 9 /\ a_total_sentences a = 3 /\
  a_topic_entry a = Some (mkWordEntry "cat" 2 2 1) /\
  lookup_word "the" (hash_table m) = Some (mkWordEntry "the" 3 3 2) /\
  (forall e, e ∈ entries (hash_table m) -> count e <= 3) /\
  is_stop_word "the" = true /\
  ("the"%string ∉ word <$> selected (a_top4 a)) /\
  lookup_word "dog" (hash_table m) = Some (mkWordEntry "dog" 1 1 2) /\
  lookup_word "sat" (hash_table m) = Some (mkWordEntry "sat" 1 1 0) /\
  lookup_word "ran" (hash_table m) = Some (mkWordEntry "ran" 1 1 1) /\
  lookup_word "slept" (hash_table m) = Some (mkWordEntry "slept" 1 1 2) /\
  selected (a_top4 a) ≡ₚ
    [mkWordEntry "sat" 1 1 0; mkWordEntry "dog" 1 1 2;
     mkWordEntry "ran" 1 1 1; mkWordEntry "slept" 1 1 2].
Proof.
  intros Hrun.
  destruct (main_body_Ret w "cat" demo_text initial a m eq_refl Hrun)
    as (s0 & _ & _ & _ & Harr & Htopic & Htop4).
  destruct (main_body_scan w "cat" demo_text initial a m Hrun)
    as (s & m1 & Hscan & Ht & Hw & Hs).
  vm_compute in Hscan. injection Hscan as <- <-. simpl in Ht, Hw, Hs.
  assert (Hte : a_topic_entry a = Some (mkWordEntry "cat" 2 2 1)).
  { rewrite Htopic, Ht. reflexivity. }
  assert (Hent : entries (hash_table m) =
                 [mkWordEntry "sat" 1 1 0; mkWordEntry "the" 3 3 2;
                  mkWordEntry "cat" 2 2 1; mkWordEntry "dog" 1 1 2;
                  mkWordEntry "ran" 1 1 1; mkWordEntry "slept" 1 1 2]).
  { rewrite Ht. reflexivity. }
  assert (Hsel : selected (a_top4 a) =
                 take 4 (filter (eligible (a_topic_entry a)) (a_array a))).
  { by rewrite Htop4, selected_slots. }
  assert (Hperm : a_array a ≡ₚ entries (hash_table m)).
  { rewrite Harr. apply qsort_perm. }
  split; [by rewrite Hw|]. split; [by rewrite Hs|]. split; [done|].
  split; [by rewrite Ht|].
  split.
  { rewrite Hent. intros e He.
    repeat (apply elem_of_cons in He as [->|He]; [simpl; lia|]).
    by apply elem_of_nil in He. }
  split; [reflexivity|].
  split.
  { rewrite Hsel. intros (e & Hword & He)%list_elem_of_fmap.
    apply sel_eligible in He as [_ [_ Hstop]]. by rewrite <- Hword in Hstop. }
  do 4 (split; [by rewrite Ht|]).
  rewrite Hsel.
  assert (Hpool : filter (eligible (a_topic_entry a)) (a_array a) ≡ₚ
                  [mkWordEntry "sat" 1 1 0; mkWordEntry "dog" 1 1 2;
                   mkWordEntry "ran" 1 1 1; mkWordEntry "slept" 1 1 2]).
  { rewrite Hperm, Hent, Hte. reflexivity. }
  rewrite take_ge; [done|].
  apply Permutation_length in Hpool. rewrite Hpool. simpl. lia.
Qed.

Lemma cat_example_witness :
  exists a m,
    main_body (calm EmptyString) "cat" demo_text initial = Ret a m /\
    a_total_words a = 9 /\ a_total_sentences a = 3.
Proof.
  eexists _, _. split; [vm_compute; reflexivity|].
  split.
  - eapply (cat_example (calm EmptyString)). vm_compute. reflexivity.
  - eapply (cat_example (calm EmptyString)). vm_compute. reflexivity.
Defined.

(** C7: the exit status is 0 when the report has been printed, and it is
    [EXIT_FAILURE] exactly when the topic argument is missing (after the usage
    message, nothing is read or allocated), when the input file cannot be
    opened (after [perror], nothing is read or allocated), or when an
    allocation request is refused (after the out-of-memory message, no report
    is printed). *)
Theorem main_exit_status `{Qsort} w argv :
  let o := main w argv in
  let no_topic := (length argv < 2)%nat in
  let no_input :=
    (3 <= length argv)%nat /\ fopen w (default EmptyString (argv !! 2%nat)) = None in
  (status o = EXIT_SUCCESS \/ status o = EXIT_FAILURE) /\
  (status o <> 0 <-> no_topic \/ no_input \/ false ∈ requests o) /\
  (status o = 0 <-> exists r, stdout o = Some r) /\
  (no_topic -> o = mkOutcome EXIT_FAILURE None [usage argv] []) /\
  (~ no_topic -> no_input -> o = mkOutcome EXIT_FAILURE None [Perror "fopen"] []) /\
  (false ∈ requests o ->
   stdout o = None /\ stderr o = [out_of_memory] /\
   exists tr, requests o = tr ++ [false] /\ Forall (fun p => p = true) tr).
Proof.
  intros o no_topic no_input. subst o no_topic no_input. unfold main.
  assert (Hbody : forall topic fp,
    let o := run_body w topic fp in
    (status o = EXIT_SUCCESS \/ status o = EXIT_FAILURE) /\
    (status o <> 0 <-> false ∈ requests o) /\
    (status o = 0 <-> exists r, stdout o = Some r) /\
    (false ∈ requests o ->
     stdout o = None /\ stderr o = [out_of_memory] /\
     exists tr, requests o = tr ++ [false] /\ Forall (fun p => p = true) tr)).
  { intros topic fp.
    destruct (run_body_outcome w topic fp) as [(a & m & _ & -> & Hall)|(tr & -> & Hall)];
      simpl.
    - assert (false ∉ allocs m).
      { intros Hin. by apply (proj1 (Forall_forall _ _) Hall) in Hin. }
      split; [by left|]. split; [split; [done|tauto]|]. split; [|tauto].
      split; [eauto|done].
    - assert (false ∈ tr ++ [false]).
      { apply elem_of_app. right. apply list_elem_of_here. }
      split; [by right|]. split; [split; [done|by unfold EXIT_FAILURE]|].
      split; [split; [by unfold EXIT_FAILURE|by intros [? ?]]|]. eauto. }
  destruct (decide (length argv < 2)%nat) as [Hargc|Hargc]; simpl.
  - split; [by right|]. split; [split; [auto|by unfold EXIT_FAILURE]|].
    split; [split; [by unfold EXIT_FAILURE|by intros [? ?]]|].
    split; [done|]. split; [done|]. by intros ?%elem_of_nil.
  - destruct (decide (3 <= length argv)%nat) as [Hfile|Hfile].
    + destruct (fopen w _) as [fp|] eqn:Hopen; simpl.
      * destruct (Hbody (default EmptyString (argv !! 1%nat)) fp) as (H1 & H2 & H3 & H4).
        split; [done|]. split; [|split; [done|split; [done|split; [|done]]]].
        -- rewrite H2. split; [tauto|]. intros [?|[[_ ?]|?]]; done.
        -- by intros _ [_ ?].
      * split; [by right|]. split; [split; [auto|by unfold EXIT_FAILURE]|].
        split; [split; [by unfold EXIT_FAILURE|by intros [? ?]]|].
        split; [done|]. split; [done|]. by intros ?%elem_of_nil.
    + destruct (Hbody (default EmptyString (argv !! 1%nat)) (stdin w)) as (H1 & H2 & H3 & H4).
      split; [done|]. split; [|split; [done|split; [done|split; [|done]]]].
      * rewrite H2. split; [tauto|]. intros [?|[[? _]|?]]; done.
      * by intros _ [? _].
Qed.

(** The three ways out of [main] with a failure status, run. *)
Example main_usage :
  main (calm EmptyString) ["topic_index"]%string =
  mkOutcome EXIT_FAILURE None [usage ["topic_index"]%string] [].
Proof. reflexivity. Qed.

Example main_fopen_fails :
  main (calm EmptyString) ["topic_index"; "cat"; "missing.txt"]%string =
  mkOutcome EXIT_FAILURE None [Perror "fopen"] [].
Proof. reflexivity. Qed.

Example main_out_of_memory :
  main (mkWorld (fun n => negb (n =? 3)%nat) (fun _ => None) "hello world")
    ["topic_index"; "cat"]%string =
  mkOutcome EXIT_FAILURE None [out_of_memory] [true; true; true; false].
Proof. vm_compute. reflexivity. Qed.

(** C8: on the empty input, whatever the topic, the report has
    [total_words = 0], [total_sentences = 0] and no line: there is no
    topic entry and no slot of [top4] is filled. *)
Theorem empty_input_report `{Qsort} w topic a m :
  main_body w topic EmptyString initial = Ret a m ->
  print_report topic a = mkReport topic 0 0 [] /\
  a_topic_entry a = None /\ a_top4 a = replicate 4 None.
Proof.
  intros Hrun.
  destruct (main_body_Ret w topic EmptyString initial a m eq_refl Hrun)
    as (s & Hsc & Hw & Hs & Harr & Htopic & Htop4).
  pose proof (sc_table _ _ _ Hsc) as Hti.
  assert (Hnil : entries (hash_table m) = []).
  { apply entries_nil_of_keys. exact (ti_keys _ _ _ Hti). }
  assert (Hte : a_topic_entry a = None).
  { rewrite Htopic. destruct (lookup_word _ _) as [e|] eqn:E; [|done].
    apply lookup_word_elem in E. rewrite Hnil in E. by apply elem_of_nil in E. }
  assert (Harr' : a_array a = []).
  { apply Permutation_nil. symmetry. rewrite Harr, Hnil. apply qsort_perm. }
  assert (Ht4 : a_top4 a = replicate 4 None).
  { rewrite Htop4, Harr'. done. }
  assert (Hw0 : a_total_words a = 0).
  { rewrite Hw, (ti_words _ _ _ Hti). done. }
  assert (Hs0 : a_total_sentences a = 0).
  { rewrite Hs, (sc_sentences _ _ _ Hsc), (ti_words _ _ _ Hti). done. }
  split; [|done]. unfold print_report. by rewrite Hte, Ht4, Hw0, Hs0.
Qed.

Lemma empty_input_report_witness :
  exists a m,
    main_body (calm EmptyString) "cat" EmptyString initial = Ret a m /\
    (print_report "cat" a = mkReport "cat" 0 0 [] /\
     a_topic_entry a = None /\ a_top4 a = replicate 4 None).
Proof.
  eexists _, _. split; [vm_compute; reflexivity|].
  eapply (empty_input_report (calm EmptyString) "cat").
  vm_compute. reflexivity.
Defined.

(** C9: after the text has been read, [total_words] is the sum of the
    counts of all entries of the table (and the number of words of the
    text), so no entry has a count above [total_words]: each word that is
    finished adds 1 to [total_words] and is recorded in the table once, which
    adds 1 to the count of one entry and leaves the other entries as they
    are. *)
Theorem total_words_is_sum_of_counts `{Qsort} w :
  (forall topic text a m,
      main_body w topic text initial = Ret a m ->
      a_total_words a = total_count (entries (hash_table m)) /\
      a_total_words a = Z.of_nat (length (spec_words text)) /\
      forall e, e ∈ entries (hash_table m) -> count e <= a_total_words a) /\
  (forall s m s' m',
      table_wf (hash_table m) -> Forall (fun a => code a <> 0) (buf s) ->
      buf s <> [] ->
      finish_word w s m = Ret s' m' ->
      total_words s' = total_words s + 1 /\
      total_count (entries (hash_table m')) = total_count (entries (hash_table m)) + 1 /\
      recorded (string_of_list_ascii (buf s)) (current_sentence_id s)
        (hash_table m) (hash_table m')).
Proof.
  split.
  - intros topic text a m Hrun.
    destruct (main_body_Ret w topic text initial a m eq_refl Hrun) as (s & Hsc & -> & _).
    destruct Hsc as [[Hwf Hnd Hok Htot Hws Hkeys Hcnt] _ _ _].
    split; [done|]. split; [done|].
    intros e He. rewrite <- Htot. apply count_le_total_count; [|done].
    eapply Forall_impl; [exact Hok|]. unfold entry_ok. intros; lia.
  - intros s m s' m' Hwf Hbuf Hne Hfin.
    destruct (finish_word_records _ _ _ _ _ Hwf Hbuf Hne Hfin) as [Hw Hrec].
    split; [done|]. split; [|done]. by eapply recorded_total_count.
Qed.

Lemma total_words_is_sum_of_counts_witness :
  exists a m,
    main_body (calm EmptyString) "cat" demo_text initial = Ret a m /\
    (a_total_words a = total_count (entries (hash_table m)) /\
     a_total_words a = Z.of_nat (length (spec_words demo_text)) /\
     forall e, e ∈ entries (hash_table m) -> count e <= a_total_words a).
Proof.
  eexists _, _. split; [vm_compute; reflexivity|].
  apply (proj1 (total_words_is_sum_of_counts (calm EmptyString)) "cat"%string demo_text).
  vm_compute. reflexivity.
Defined.

(** C10: the selected entries (at most 4) are entries of the table, pairwise
    distinct (also as words), none is the topic entry or a stop word, their
    counts never increase in the order in which they are selected and
    printed, and an entry that is not selected and is neither the topic
    entry nor a stop word has a count that is at most the count of every
    selected entry.  The topic entry is the entry of the topic in lower
    case, so that no selected entry has that word; and as many entries are
    selected as the table has that are neither the topic entry nor stop
    words, up to 4. *)
Theorem top4_selection `{Qsort} w topic text a m :
  main_body w topic text initial = Ret a m ->
  let sel := selected (a_top4 a) in
  (length sel <= 4)%nat /\
  NoDup sel /\ NoDup (word <$> sel) /\
  (forall e, e ∈ sel ->
     e ∈ entries (hash_table m) /\ Some e <> a_topic_entry a /\
     is_stop_word (word e) = false) /\
  StronglySorted (fun x y => count y <= count x) sel /\
  (forall e s, e ∈ entries (hash_table m) -> e ∉ sel ->
     Some e <> a_topic_entry a -> is_stop_word (word e) = false ->
     s ∈ sel -> count e <= count s) /\
  rep_lines (print_report topic a) =
    line_of (a_total_words a) (a_total_sentences a)
      <$> (option_list (a_topic_entry a) ++ sel) /\
  (forall e, e ∈ entries (hash_table m) -> word e = lower_case topic ->
     a_topic_entry a = Some e) /\
  (forall e, e ∈ sel -> word e <> lower_case topic) /\
  (c_string topic -> forall e, a_topic_entry a = Some e ->
     e ∈ entries (hash_table m) /\ word e = lower_case topic) /\
  length sel =
    Nat.min 4 (length (filter (eligible (a_topic_entry a)) (entries (hash_table m)))).
Proof.
  intros Hrun sel.
  destruct (main_body_Ret w topic text initial a m eq_refl Hrun)
    as (s & Hsc & Hw & Hs & Harr & Htopic & Htop4).
  assert (Hsel : sel = take 4 (filter (eligible (a_topic_entry a)) (a_array a))).
  { unfold sel. by rewrite Htop4, selected_slots. }
  assert (Hperm : a_array a ≡ₚ entries (hash_table m)).
  { rewrite Harr. apply qsort_perm. }
  assert (Hsorted : StronglySorted (cmp_le cmp_wordptr_count) (a_array a)).
  { rewrite Harr. apply qsort_sorted, cmp_wordptr_count_consistent. }
  assert (Hnd : NoDup (word <$> sel)).
  { apply (sublist_NoDup _ (word <$> a_array a)).
    - rewrite Hperm. exact (ti_nodup _ _ _ (sc_table _ _ _ Hsc)).
    - apply fmap_sublist. rewrite Hsel. apply sel_sublist. }
  assert (Hfound : forall e, e ∈ entries (hash_table m) -> word e = lower_case topic ->
                             a_topic_entry a = Some e).
  { intros e He Hwe. rewrite Htopic, lower_case_spec, <- Hwe.
    apply lookup_word_found; [|exact (ti_nodup _ _ _ (sc_table _ _ _ Hsc))|done].
    exact (ti_wf _ _ _ (sc_table _ _ _ Hsc)). }
  rewrite Hsel in *.
  split; [apply sel_length|].
  split; [by apply NoDup_fmap_1 in Hnd|].
  split; [done|].
  split.
  { intros e He. apply sel_eligible in He as [He [? ?]]. by rewrite <- Hperm. }
  split; [by apply sel_sorted|].
  split.
  { intros e s0 He Hnot Hne Hstop Hs0.
    eapply sel_maximal; eauto; [by rewrite Hperm | by split]. }
  split.
  { rewrite rep_lines_print_report. fold sel. by rewrite Hsel. }
  split; [done|].
  split.
  { intros e He Hwe. apply sel_eligible in He as [He [Hne _]].
    apply Hne. symmetry. apply Hfound; [by rewrite <- Hperm | done]. }
  split.
  { intros Hcs e He. rewrite Htopic in He.
    apply lookup_word_Some in He; [by rewrite <- lower_case_spec| |].
    - exact (ti_wf _ _ _ (sc_table _ _ _ Hsc)).
    - by apply c_string_lower_string. }
  rewrite length_take. f_equal. apply Permutation_length.
  by apply filter_Permutation.
Qed.

Lemma top4_selection_witness :
  exists a m,
    main_body (calm EmptyString) "Cat" ranked_text initial = Ret a m /\
    a_topic_entry a = Some (mkWordEntry "cat" 6 1 0) /\
    word <$> selected (a_top4 a) = ["dog"; "bird"; "fish"; "ant"]%string /\
    count <$> selected (a_top4 a) = [5; 4; 3; 2] /\
    (forall e, e ∈ selected (a_top4 a) -> word e <> "cat"%string) /\
    (forall s, s ∈ selected (a_top4 a) -> count (mkWordEntry "bee" 1 1 0) <= count s) /\
    StronglySorted (fun x y => count y <= count x) (selected (a_top4 a)).
Proof.
  eexists _, _. split; [vm_compute; reflexivity|].
  pose proof (top4_selection (calm EmptyString) "Cat" ranked_text) as Hsel.
  specialize (Hsel _ _ ltac:(vm_compute; reflexivity)). cbv zeta in Hsel.
  destruct Hsel as (_ & _ & _ & _ & Hsorted & Hmax & _ & Htopic & Hword & _ & _).
  split.
  { apply Htopic; [|reflexivity]. apply (bool_decide_unpack _). vm_compute. exact I. }
  split; [reflexivity|]. split; [reflexivity|].
  split; [exact Hword|]. split; [|exact Hsorted].
  intros s0. apply Hmax.
  - apply (bool_decide_unpack _). vm_compute. exact I.
  - apply (bool_decide_unpack _). vm_compute. exact I.
  - discriminate.
  - reflexivity.
Defined.

(** ** Further properties *)

(** X1: the table holds one entry for each word of the text and no other, and
    the count of an entry is the number of occurrences of its word in the
    text. *)
Theorem table_counts_words `{Qsort} w topic text a m :
  main_body w topic text initial = Ret a m ->
  NoDup (word <$> entries (hash_table m)) /\
  (forall x, x ∈ word <$> entries (hash_table m) <-> x ∈ spec_words text) /\
  (forall e, e ∈ entries (hash_table m) ->
     count e = occurrences (word e) (spec_words text)).
Proof.
  intros Hrun.
  destruct (main_body_Ret w topic text initial a m eq_refl Hrun) as (s & Hsc & _).
  destruct (sc_table _ _ _ Hsc) as [Hwf Hnd Hok Htot Hws Hkeys Hcnt].
  split; [done|]. split; [done|].
  intros e He. by apply (proj1 (Forall_forall _ _) Hcnt).
Qed.

Lemma table_counts_words_witness :
  exists a m,
    main_body (calm EmptyString) "cat" demo_text initial = Ret a m /\
    NoDup (word <$> entries (hash_table m)).
Proof.
  eexists _, _. split; [vm_compute; reflexivity|].
  eapply (table_counts_words (calm EmptyString) "cat" demo_text).
  vm_compute. reflexivity.
Defined.

(** X2: the percentage of words of every line of the report is in [0, 100],
    the percentage of sentences is not negative, and the sentence count of
    a line is at most [total_sentences + 1]. *)
Theorem report_percentages `{Qsort} w topic text a m l :
  main_body w topic text initial = Ret a m ->
  l ∈ rep_lines (print_report topic a) ->
  (0 <= l_pct_w l <= 100)%Q /\ (0 <= l_pct_s l)%Q /\
  0 <= l_sentence_count l <= l_total_sentences l + 1.
Proof. apply report_lines_bounds. Qed.

Lemma report_percentages_witness :
  exists a m,
    main_body (calm EmptyString) "cat" "cat. cat" initial = Ret a m /\
    (0 <= 200 # 2 <= 100)%Q.
Proof.
  eexists _, _. split; [vm_compute; reflexivity|].
  eapply (report_percentages (calm EmptyString) "cat" "cat. cat" _ _
            (mkLine "cat" 2 (200 # 2) 2 1 (200 # 1))).
  - vm_compute. reflexivity.
  - apply list_elem_of_here.
Defined.

(** ** The table as a map from words to entries *)

(** X3: the index computed by [hash_word] is always a valid index of
    [hash_table]; after a run every entry is in the chain of the hash of its
    word, so that the chain walk finds the entry of every word of the text,
    with the number of occurrences of the word as its count, and ends on
    [NULL] for every other word. *)
Theorem table_lookup `{Qsort} w topic text a m :
  main_body w topic text initial = Ret a m ->
  (forall x, 0 <= hash_word x < HASH_SIZE) /\
  length (hash_table m) = Z.to_nat HASH_SIZE /\
  (forall e, e ∈ entries (hash_table m) ->
     e ∈ chain (hash_table m) (hash_word (word e))) /\
  (forall x, x ∈ spec_words text ->
     exists e, lookup_word x (hash_table m) = Some e /\ word e = x /\
               count e = occurrences x (spec_words text)) /\
  (forall x, c_string x -> x ∉ spec_words text ->
     lookup_word x (hash_table m) = None).
Proof.
  intros Hrun.
  destruct (main_body_Ret w topic text initial a m eq_refl Hrun) as (s & Hsc & _).
  destruct (sc_table _ _ _ Hsc) as [Hwf Hnd Hok Htot Hws Hkeys Hcnt].
  split; [apply hash_word_range|]. split; [apply Hwf|].
  split; [intros e He; by apply elem_of_entries|]. split.
  - intros x Hx. apply Hkeys in Hx as (e & -> & He)%list_elem_of_fmap.
    exists e. split; [by apply lookup_word_found|]. split; [done|].
    by apply (proj1 (Forall_forall _ _) Hcnt).
  - intros x Hcs Hx. destruct (lookup_word x (hash_table m)) as [e|] eqn:E; [|done].
    apply lookup_word_Some in E as [He <-]; [|done..].
    destruct Hx. apply Hkeys. by apply list_elem_of_fmap_2.
Qed.

Lemma table_lookup_witness :
  exists a m,
    main_body (calm EmptyString) "cat" demo_text initial = Ret a m /\
    exists e, lookup_word "cat" (hash_table m) = Some e /\ word e = "cat"%string /\
              count e = occurrences "cat" (spec_words demo_text).
Proof.
  eexists _, _. split; [vm_compute; reflexivity|].
  eapply (table_lookup (calm EmptyString) "cat" demo_text).
  - vm_compute. reflexivity.
  - vm_compute. apply list_elem_of_further, list_elem_of_here.
Defined.

(** ** [get_word_entry]: the other words, the allocations, the failures *)

Lemma chain_lookup_alter_other x c pos (f : WordEntry -> WordEntry) :
  (forall e, word (f e) = word e) ->
  (forall e, c !! pos = Some e -> strcmp (word e) x <> 0) ->
  chain_lookup x (alter f pos c) = chain_lookup x c.
Proof.
  intros Hf. revert pos. induction c as [|e c IH]; intros pos Hpos; [done|].
  destruct pos as [|pos]; simpl.
  - rewrite Hf. destruct (Z.eqb_spec (strcmp (word e) x) 0) as [E|E]; [|done].
    by destruct (Hpos e eq_refl).
  - destruct (strcmp (word e) x =? 0); [done|]. apply IH. intros e' He'. by apply Hpos.
Qed.

Lemma chain_alter_ne (t : table) f h h' :
  0 <= h < HASH_SIZE -> 0 <= h' < HASH_SIZE -> h <> h' ->
  chain (alter f (Z.to_nat h) t) h' = chain t h'.
Proof.
  intros Hh Hh' Hne. unfold chain. rewrite list_lookup_alter_ne; [done|lia].
Qed.

Lemma chain_find_lookup wd c pos :
  chain_find wd c = Some pos -> exists e, c !! pos = Some e /\ strcmp (word e) wd = 0.
Proof.
  revert pos. induction c as [|e c IH]; intros pos; simpl; [done|].
  destruct (Z.eqb_spec (strcmp (word e) wd) 0) as [E|E].
  - intros [= <-]. by exists e.
  - destruct (chain_find wd c) as [q|]; [|done]. intros [= <-]. simpl. by apply IH.
Qed.

Lemma chain_find_is_Some wd c : is_Some (chain_find wd c) <-> is_Some (chain_lookup wd c).
Proof.
  rewrite chain_lookup_find. destruct (chain_find wd c) as [pos|] eqn:E; simpl.
  - destruct (chain_find_lookup _ _ _ E) as (e & -> & _). split; eauto.
  - split; by intros [? ?].
Qed.

(** X4: a call of [get_word_entry] for a word leaves the entry of every
    other word as it is and keeps the table well formed; it requests no
    memory when the word has an entry, and exactly two blocks (the node and
    the copy of the word) when it has none. *)
Theorem get_word_entry_frame w wd cs m p m' :
  table_wf (hash_table m) -> c_string wd ->
  get_word_entry w wd cs m = Ret p m' ->
  table_wf (hash_table m') /\
  (forall x, c_string x -> x <> wd ->
     lookup_word x (hash_table m') = lookup_word x (hash_table m)) /\
  (is_Some (lookup_word wd (hash_table m)) -> allocs m' = allocs m) /\
  (lookup_word wd (hash_table m) = None -> allocs m' = allocs m ++ [true; true]).
Proof.
  intros Hwf Hwd Hcall.
  split; [by apply (get_word_entry_Ret _ _ _ _ _ _ Hwf Hwd Hcall)|].
  pose proof (hash_word_range wd) as Hh.
  pose proof (chain_c_string _ Hwf (hash_word wd)) as Hcs.
  assert (Hlt : (Z.to_nat (hash_word wd) < length (hash_table m))%nat).
  { destruct Hwf as [-> _]. lia. }
  unfold get_word_entry in Hcall. unfold lookup_word at 3 4. minv.
  destruct (chain_find wd _) as [pos|] eqn:Hfind; minv; simpl.
  - destruct (chain_find_lookup _ _ _ Hfind) as (e & He & Hstr).
    assert (Hw : word e = wd).
    { apply strcmp_eq; [|done..].
      apply (proj1 (Forall_forall _ _) Hcs). by eapply list_elem_of_lookup_2. }
    split; [|split; [done|]].
    + intros y Hy Hne. unfold lookup_word.
      destruct (decide (hash_word wd = hash_word y)) as [Heq|Hneq].
      * rewrite <- Heq, chain_alter by done.
        apply chain_lookup_alter_other; [intros ?; apply word_update_counts|].
        intros e' He'. rewrite He in He'. injection He' as <-.
        rewrite Hw. intros E. apply strcmp_eq in E; auto.
      * by rewrite chain_alter_ne by (done || apply hash_word_range).
    + rewrite chain_lookup_find, Hfind. simpl. rewrite He. done.
  - split; [|split].
    + intros y Hy Hne. unfold lookup_word. rewrite list_alter_alter_eq.
      destruct (decide (hash_word wd = hash_word y)) as [Heq|Hneq].
      * rewrite <- Heq, chain_alter by done. simpl.
        rewrite word_update_counts. simpl.
        destruct (Z.eqb_spec (strcmp wd y) 0) as [E|E]; [|done].
        apply strcmp_eq in E; auto. by destruct Hne.
      * by rewrite chain_alter_ne by (done || apply hash_word_range).
    + rewrite chain_lookup_find, Hfind. by intros [? ?].
    + intros _. by rewrite <- app_assoc.
Qed.

Lemma get_word_entry_frame_witness :
  exists p m',
    get_word_entry (calm EmptyString) "dog" 0 initial = Ret p m' /\
    lookup_word "cat" (hash_table m') = lookup_word "cat" (hash_table initial) /\
    allocs m' = [true; true].
Proof.
  eexists _, _. split; [vm_compute; reflexivity|].
  assert (Hdog : c_string "dog") by (repeat constructor; vm_compute; discriminate).
  assert (Hcat : c_string "cat") by (repeat constructor; vm_compute; discriminate).
  split.
  - eapply (get_word_entry_frame (calm EmptyString) "dog" 0 initial);
      [apply empty_table_wf | exact Hdog | vm_compute; reflexivity | exact Hcat | discriminate].
  - eapply (get_word_entry_frame (calm EmptyString) "dog" 0 initial);
      [apply empty_table_wf | exact Hdog | vm_compute; reflexivity | reflexivity].
Defined.

(** X5: [get_word_entry] leaves the program only for a word that has no
    entry yet, when one of its two allocations is refused: with status
    [EXIT_FAILURE], after the out-of-memory message, and with the table as
    it was. *)
Theorem get_word_entry_exit w wd cs m st err m' :
  get_word_entry w wd cs m = Exit st err m' ->
  lookup_word wd (hash_table m) = None /\
  st = EXIT_FAILURE /\ err = out_of_memory /\
  hash_table m' = hash_table m /\
  (allocs m' = allocs m ++ [false] \/ allocs m' = allocs m ++ [true; false]).
Proof.
  unfold get_word_entry, lookup_word, get_table, modify_table, xmalloc, malloc, bind, ret, exit.
  rewrite chain_lookup_find.
  destruct (chain_find wd _) as [pos|]; simpl; [discriminate|].
  destruct (alloc_ok w (length (allocs m))); simpl.
  - destruct (alloc_ok w _); simpl; [discriminate|].
    intros [= <- <- <-]. simpl. rewrite <- app_assoc. repeat split. by right.
  - intros [= <- <- <-]. simpl. repeat split. by left.
Qed.

Lemma get_word_entry_exit_witness :
  lookup_word "dog" (hash_table initial) = None /\
  hash_table (mkMem empty_table [false]) = hash_table initial.
Proof.
  pose proof (get_word_entry_exit (mkWorld (fun _ => false) (fun _ => None) EmptyString)
                "dog" 0 initial EXIT_FAILURE out_of_memory (mkMem empty_table [false])) as Hx.
  destruct Hx as (H1 & _ & _ & H2 & _); [vm_compute; reflexivity|].
  split; [exact H1 | exact H2].
Defined.

(** ** The buffer of the reading loop *)

(** X6: whatever part of the input has been read, the buffer has room for
    the characters of the current word and for the final NUL, and its
    capacity is at most twice the number of characters read (or the initial
    capacity): [buf[buf_len++]] and [buf[buf_len] = 0] write inside the
    block. *)
Theorem buffer_has_room w pre m s m' :
  hash_table m = empty_table ->
  foldM (scan_char w) pre (mkScan [] INITIAL_BUF_SIZE 0 0 0) m = Ret s m' ->
  0 <= buf_len s /\ buf_len s + 1 <= buf_cap s /\
  buf_cap s <= Z.max INITIAL_BUF_SIZE (2 * Z.of_nat (length pre)) /\
  Forall (fun a => code a <> 0) (buf s).
Proof.
  intros Hm Hloop.
  apply (foldM_inv _ scan_inv _ []) in Hloop;
    [|intros; eapply scan_char_inv; eauto | by apply scan_inv_init].
  simpl in Hloop. destruct Hloop as [_ Hbuf _ _ _ Hcap].
  unfold buf_len in *. repeat split; (done || lia).
Qed.

Lemma buffer_has_room_witness :
  exists s m',
    foldM (scan_char (calm EmptyString)) (list_ascii_of_string "The cat")
      (mkScan [] INITIAL_BUF_SIZE 0 0 0) initial = Ret s m' /\
    buf_len s + 1 <= buf_cap s.
Proof.
  eexists _, _. split; [vm_compute; reflexivity|].
  eapply (buffer_has_room (calm EmptyString) (list_ascii_of_string "The cat") initial).
  - reflexivity.
  - vm_compute. reflexivity.
Defined.

(** ** The characters of the words *)

Lemma split_words_elem l r a :
  r ∈ split_words l -> a ∈ r -> a ∈ l /\ isalnum (code a) = true.
Proof.
  revert r. induction l as [|b l IH]; intros r Hr Ha; simpl in Hr.
  - apply list_elem_of_singleton in Hr as ->. by apply elem_of_nil in Ha.
  - destruct (isalnum (code b)) eqn:Hb.
    + destruct (split_words l) as [|r0 rs] eqn:E.
      * apply list_elem_of_singleton in Hr as ->.
        apply list_elem_of_singleton in Ha as ->. split; [apply list_elem_of_here | done].
      * apply elem_of_cons in Hr as [->|Hr].
        -- apply elem_of_cons in Ha as [->|Ha]; [split; [apply list_elem_of_here | done]|].
           destruct (IH r0 (list_elem_of_here _ _) Ha) as [? ?].
           split; [by apply list_elem_of_further | done].
        -- destruct (IH r (list_elem_of_further _ _ _ Hr) Ha) as [? ?].
           split; [by apply list_elem_of_further | done].
    + apply elem_of_cons in Hr as [->|Hr]; [by apply elem_of_nil in Ha|].
      destruct (IH r Hr Ha) as [? ?]. split; [by apply list_elem_of_further | done].
Qed.

Lemma lower_char_lower_alnum a :
  isalnum (code (lower_char a)) = true -> lower_alnum (lower_char a).
Proof.
  unfold lower_alnum. rewrite code_lower_char. unfold isalnum, tolower.
  destruct (Z.leb_spec 65 (code a)), (Z.leb_spec (code a) 90); simpl;
    repeat match goal with |- context [?x <=? ?y] => destruct (Z.leb_spec x y) end;
    simpl; intros; try discriminate; lia.
Qed.

Lemma spec_words_chars text x :
  x ∈ spec_words text ->
  x <> EmptyString /\ Forall lower_alnum (list_ascii_of_string x).
Proof.
  unfold spec_words, words_of_runs.
  intros (r & -> & [Hne Hr]%list_elem_of_filter)%list_elem_of_fmap.
  rewrite list_ascii_of_string_of_list_ascii. split.
  - destruct r; [done | discriminate].
  - apply Forall_forall. intros a Ha.
    destruct (split_words_elem _ _ _ Hr Ha) as [(b & -> & _)%list_elem_of_fmap Hal].
    by apply lower_char_lower_alnum.
Qed.

Lemma lower_alnum_c_string x : Forall lower_alnum (list_ascii_of_string x) -> c_string x.
Proof.
  unfold c_string. intros Hx. eapply Forall_impl; [exact Hx|].
  unfold lower_alnum. intros a; lia.
Qed.

(** X7: the words of the table are not empty and are made of digits and
    lower-case letters; on them [is_stop_word] is membership in
    [STOP_WORDS], so the entry [I] of the list, which has an upper-case
    letter, matches none of them: the word [i] is not a stop word, and its
    entry, when it is not the topic entry, is among those the top 4 are
    taken from. *)
Theorem table_words_lower_case `{Qsort} w topic text a m e :
  main_body w topic text initial = Ret a m ->
  e ∈ entries (hash_table m) ->
  word e <> EmptyString /\
  Forall lower_alnum (list_ascii_of_string (word e)) /\
  (is_stop_word (word e) = true <-> word e ∈ STOP_WORDS) /\
  word e <> "I"%string /\
  is_stop_word "i" = false /\
  (word e = "i"%string -> Some e <> a_topic_entry a -> eligible (a_topic_entry a) e).
Proof.
  intros Hrun He.
  destruct (main_body_Ret w topic text initial a m eq_refl Hrun) as (s & Hsc & _).
  assert (Hx : word e ∈ spec_words text).
  { apply (ti_keys _ _ _ (sc_table _ _ _ Hsc)). by apply list_elem_of_fmap_2. }
  destruct (spec_words_chars _ _ Hx) as [Hne Hch].
  split; [done|]. split; [done|]. split; [|split; [|split]].
  - by apply is_stop_word_spec, lower_alnum_c_string.
  - intros HI. rewrite HI in Hch. apply Forall_cons_1 in Hch as [Hc _].
    unfold lower_alnum in Hc. vm_compute in Hc. destruct Hc as [[? ?]|[? ?]]; done.
  - reflexivity.
  - intros Hi Hte. split; [done|]. by rewrite Hi.
Qed.

Lemma table_words_lower_case_witness :
  exists a m,
    main_body (calm EmptyString) "cat" "I am" initial = Ret a m /\
    mkWordEntry "i" 1 1 0 ∈ entries (hash_table m) /\
    mkWordEntry "i" 1 1 0 ∈ selected (a_top4 a) /\
    is_stop_word "i" = false /\
    eligible (a_topic_entry a) (mkWordEntry "i" 1 1 0).
Proof.
  eexists _, _. split; [vm_compute; reflexivity|].
  assert (Hin : mkWordEntry "i" 1 1 0 ∈
                [mkWordEntry "i" 1 1 0; mkWordEntry "am" 1 1 0]) by apply list_elem_of_here.
  split; [exact Hin|].
  split; [apply (bool_decide_unpack _); vm_compute; exact I|].
  pose proof (table_words_lower_case (calm EmptyString) "cat" "I am") as Hlow.
  specialize (Hlow _ _ (mkWordEntry "i" 1 1 0) ltac:(vm_compute; reflexivity)).
  destruct (Hlow Hin) as (_ & _ & _ & _ & Hi & Hel).
  split; [exact Hi|]. apply Hel; [reflexivity | discriminate].
Defined.

(** ** The sort *)

(** X8: [cmp_wordptr_count] is a comparison function as [qsort] wants one:
    its values are -1, 0 and 1, swapping the arguments negates it, it is
    negative exactly when the first entry has the larger count, zero exactly
    on equal counts, and the order it gives is transitive. *)
Theorem cmp_wordptr_count_order (wa wb wc : WordPtr) :
  (cmp_wordptr_count wa wb = -1 \/ cmp_wordptr_count wa wb = 0 \/
   cmp_wordptr_count wa wb = 1) /\
  cmp_wordptr_count wa wb = - cmp_wordptr_count wb wa /\
  (cmp_wordptr_count wa wb < 0 <-> count wb < count wa) /\
  (cmp_wordptr_count wa wb = 0 <-> count wa = count wb) /\
  (cmp_wordptr_count wa wb <= 0 -> cmp_wordptr_count wb wc <= 0 ->
   cmp_wordptr_count wa wc <= 0).
Proof.
  unfold cmp_wordptr_count.
  destruct (Z.ltb_spec (count wa) (count wb)), (Z.ltb_spec (count wb) (count wa)),
    (Z.ltb_spec (count wb) (count wc)), (Z.ltb_spec (count wc) (count wb)),
    (Z.ltb_spec (count wa) (count wc)), (Z.ltb_spec (count wc) (count wa)); lia.
Qed.

(** X9: the array given to the report holds each entry of the table once,
    has as many elements as the text has distinct words, and is in order of
    non-increasing count, whatever [qsort] does with equal counts. *)
Theorem array_sorted `{Qsort} w topic text a m :
  main_body w topic text initial = Ret a m ->
  a_array a ≡ₚ entries (hash_table m) /\
  NoDup (a_array a) /\
  length (a_array a) = length (remove_dups (spec_words text)) /\
  StronglySorted (fun x y => count y <= count x) (a_array a).
Proof.
  intros Hrun.
  destruct (main_body_Ret w topic text initial a m eq_refl Hrun)
    as (s & Hsc & _ & _ & Harr & _).
  destruct (sc_table _ _ _ Hsc) as [Hwf Hnd Hok Htot Hws Hkeys Hcnt].
  assert (Hperm : a_array a ≡ₚ entries (hash_table m)).
  { rewrite Harr. apply qsort_perm. }
  split; [done|]. split; [|split].
  - rewrite Hperm. by apply NoDup_fmap_1 in Hnd.
  - rewrite Hperm, <- (length_fmap word). apply Permutation_length.
    apply NoDup_Permutation; [done | apply NoDup_remove_dups|].
    intros x. by rewrite Hkeys, elem_of_remove_dups.
  - assert (Hs : StronglySorted (cmp_le cmp_wordptr_count) (a_array a)).
    { rewrite Harr. apply qsort_sorted, cmp_wordptr_count_consistent. }
    clear -Hs. induction Hs as [|x l Hs IH Hx]; constructor; auto.
    eapply Forall_impl; [exact Hx|]. intros y. by rewrite cmp_wordptr_count_le.
Qed.

Lemma array_sorted_witness :
  exists a m,
    main_body (calm EmptyString) "cat" demo_text initial = Ret a m /\
    NoDup (a_array a).
Proof.
  eexists _, _. split; [vm_compute; reflexivity|].
  eapply (array_sorted (calm EmptyString) "cat" demo_text).
  vm_compute. reflexivity.
Defined.

(** ** A text without words *)

Lemma words_of_runs_nil l :
  words_of_runs (split_words l) = [] <-> Forall (fun a => isalnum (code a) = false) l.
Proof.
  unfold words_of_runs. induction l as [|a l IH]; cbn [split_words].
  - rewrite filter_cons_False by auto. split; [constructor | done].
  - destruct (isalnum (code a)) eqn:Ha.
    + split.
      * destruct (split_words l); rewrite filter_cons_True by done; discriminate.
      * intros [Hf _]%Forall_cons_1. congruence.
    + rewrite filter_cons_False by auto. rewrite IH. split.
      * by constructor.
      * by intros [_ ?]%Forall_cons_1.
Qed.

Lemma spec_words_nil text :
  spec_words text = [] <->
  Forall (fun a => isalnum (code a) = false) (list_ascii_of_string text).
Proof.
  unfold spec_words. rewrite words_of_runs_nil, Forall_fmap.
  apply Forall_iff. intros a. simpl.
  rewrite code_lower_char, isalnum_tolower; done || apply code_range.
Qed.

(** X10: the report has [total_words = 0] exactly when no character of the
    text is alphanumeric; it then has no line, and its number of sentences
    is the number of terminators of the text: the fallback of one sentence
    is not taken. *)
Theorem no_words_report `{Qsort} w topic text a m :
  main_body w topic text initial = Ret a m ->
  (a_total_words a = 0 <->
   Forall (fun c => isalnum (code c) = false) (list_ascii_of_string text)) /\
  (a_total_words a = 0 ->
   print_report topic a = mkReport topic 0 (spec_sentences text) []).
Proof.
  intros Hrun.
  destruct (main_body_Ret w topic text initial a m eq_refl Hrun)
    as (s & Hsc & Hw & Hs & Harr & Htopic & Htop4).
  pose proof (sc_table _ _ _ Hsc) as Hti.
  assert (Hz : a_total_words a = 0 <-> spec_words text = []).
  { rewrite Hw, (ti_words _ _ _ Hti). destruct (spec_words text); simpl; [done|].
    split; [lia | discriminate]. }
  split; [by rewrite Hz, spec_words_nil|].
  intros H0. pose proof (proj1 Hz H0) as Hnil.
  assert (Hent : entries (hash_table m) = []).
  { apply entries_nil_of_keys. intros x. rewrite <- Hnil. apply (ti_keys _ _ _ Hti). }
  assert (Hte : a_topic_entry a = None).
  { rewrite Htopic. destruct (lookup_word _ _) as [e|] eqn:E; [|done].
    apply lookup_word_elem in E. rewrite Hent in E. by apply elem_of_nil in E. }
  assert (Harr0 : a_array a = []).
  { apply Permutation_nil_r. rewrite Harr.
    etransitivity; [apply qsort_perm|]. by rewrite Hent. }
  unfold print_report. rewrite Hte, Htop4, Harr0, H0, Hs, (sc_sentences _ _ _ Hsc).
  rewrite <- Hw, H0. simpl. by rewrite andb_false_r.
Qed.

Lemma no_words_report_witness :
  exists a m,
    main_body (calm EmptyString) "cat" "... ?!" initial = Ret a m /\
    print_report "cat" a = mkReport "cat" 0 5 [].
Proof.
  eexists _, _. split; [vm_compute; reflexivity|].
  refine (proj2 (no_words_report (calm EmptyString) "cat" "... ?!" _ _ _) _).
  - vm_compute. reflexivity.
  - vm_compute. reflexivity.
Defined.

(** ** The line of the topic *)

Lemma occurrences_pos x ws : x ∈ ws -> 0 < occurrences x ws.
Proof.
  intros Hx. unfold occurrences.
  assert (x ∈ filter (fun y => y = x) ws) as Hf by (by apply list_elem_of_filter).
  destruct (filter _ ws); [by apply elem_of_nil in Hf | simpl; lia].
Qed.

(** X11: when the lower-cased topic is a word of the text, also when it is
    a stop word, the topic entry is the entry of that word, its count is the
    number of occurrences of the word, its line is the first line of the
    report, and the word has no second line among the selected entries. *)
Theorem topic_present_row `{Qsort} w topic text a m :
  lower_string topic ∈ spec_words text ->
  main_body w topic text initial = Ret a m ->
  exists e,
    a_topic_entry a = Some e /\ e ∈ entries (hash_table m) /\
    word e = lower_string topic /\
    count e = occurrences (lower_string topic) (spec_words text) /\ 0 < count e /\
    rep_lines (print_report topic a) =
      line_of (a_total_words a) (a_total_sentences a) <$> (e :: selected (a_top4 a)) /\
    (forall e', e' ∈ selected (a_top4 a) -> word e' <> lower_string topic).
Proof.
  intros Hin Hrun.
  destruct (main_body_Ret w topic text initial a m eq_refl Hrun)
    as (s & Hsc & Hw & Hs & Harr & Htopic & Htop4).
  destruct (sc_table _ _ _ Hsc) as [Hwf Hnd Hok Htot Hws Hkeys Hcnt].
  apply Hkeys in Hin as Hin'. apply list_elem_of_fmap in Hin' as (e & Hwe & He).
  assert (Hte : a_topic_entry a = Some e).
  { rewrite Htopic, Hwe. by apply lookup_word_found. }
  assert (Hc : count e = occurrences (lower_string topic) (spec_words text)).
  { rewrite Hwe. by apply (proj1 (Forall_forall _ _) Hcnt). }
  exists e. split; [done|]. split; [done|]. split; [done|]. split; [done|].
  split; [rewrite Hc; by apply occurrences_pos|]. split.
  - by rewrite rep_lines_print_report, Hte.
  - intros e' He'. rewrite Htop4, selected_slots in He'.
    apply sel_eligible in He' as [Hin2 [Hne _]].
    rewrite Harr, qsort_perm in Hin2. intros Hw'. apply Hne. rewrite Hte. f_equal.
    apply (NoDup_fmap_eq word (entries (hash_table m))); [done..|congruence].
Qed.

Lemma topic_present_row_witness :
  exists a m,
    main_body (calm EmptyString) "The" "the cat. The dog" initial = Ret a m /\
    exists e, a_topic_entry a = Some e /\ word e = "the"%string /\ count e = 2.
Proof.
  eexists _, _. split; [vm_compute; reflexivity|].
  destruct (topic_present_row (calm EmptyString) "The" "the cat. The dog" _ _
              ltac:(vm_compute; apply list_elem_of_here) ltac:(vm_compute; reflexivity))
    as (e & Hte & _ & Hwe & Hc & _).
  exists e. split; [exact Hte|]. split; [exact Hwe|]. rewrite Hc. vm_compute. reflexivity.
Defined.

(** ** The slots of [top4] *)

Lemma length_slots sel : (length sel <= 4)%nat -> length (slots sel) = 4%nat.
Proof. intros Hl. unfold slots. rewrite length_app, length_fmap, length_replicate. lia. Qed.

(** X12: [top4] has its 4 slots, the filled ones first; the number of
    filled slots is the number of entries of the table that are neither the
    topic entry nor stop words, or 4 when there are more: no slot is left
    empty while such an entry remains. The report has at most 5 lines. *)
Theorem top4_filled `{Qsort} w topic text a m :
  main_body w topic text initial = Ret a m ->
  length (a_top4 a) = 4%nat /\
  a_top4 a = slots (selected (a_top4 a)) /\
  length (selected (a_top4 a)) =
    Nat.min 4 (length (filter (eligible (a_topic_entry a)) (entries (hash_table m)))) /\
  (length (rep_lines (print_report topic a)) <= 5)%nat.
Proof.
  intros Hrun.
  destruct (main_body_Ret w topic text initial a m eq_refl Hrun)
    as (s & Hsc & Hw & Hs & Harr & Htopic & Htop4).
  assert (Hsel : selected (a_top4 a) =
                 take 4 (filter (eligible (a_topic_entry a)) (a_array a))).
  { by rewrite Htop4, selected_slots. }
  assert (Hl : (length (selected (a_top4 a)) <= 4)%nat).
  { rewrite Hsel, length_take. lia. }
  split; [rewrite Htop4; apply length_slots; rewrite <- Hsel; done|].
  split; [by rewrite Hsel, <- Htop4|]. split.
  - rewrite Hsel, length_take. f_equal. apply Permutation_length.
    apply filter_Permutation. rewrite Harr. apply qsort_perm.
  - rewrite rep_lines_print_report, length_fmap, length_app.
    destruct (a_topic_entry a); simpl; lia.
Qed.

Lemma top4_filled_witness :
  exists a m,
    main_body (calm EmptyString) "cat" demo_text initial = Ret a m /\
    length (a_top4 a) = 4%nat.
Proof.
  eexists _, _. split; [vm_compute; reflexivity|].
  eapply (top4_filled (calm EmptyString) "cat" demo_text).
  vm_compute. reflexivity.
Defined.

(** ** The sentences in which a word occurs *)

Lemma split_sentences_last l : exists init last, split_sentences l = init ++ [last].
Proof.
  induction l as [|a l (init & last & IH)]; simpl.
  - by exists [], [].
  - rewrite IH. destruct (is_terminator (code a)).
    + by exists ([] :: init), last.
    + destruct init as [|r rs]; simpl.
      * by exists [], (a :: last).
      * by exists ((a :: r) :: rs), last.
Qed.

Lemma split_sentences_snoc l a init last :
  split_sentences l = init ++ [last] ->
  split_sentences (l ++ [a]) =
  if is_terminator (code a) then init ++ [last; []] else init ++ [last ++ [a]].
Proof.
  revert init last. induction l as [|b l IH]; intros init last H; simpl in *.
  - destruct init as [|? [|]]; [|discriminate H..].
    injection H as <-. by destruct (is_terminator (code a)).
  - destruct (split_sentences_last l) as (init' & last' & Hl).
    rewrite (IH _ _ Hl). rewrite Hl in H.
    assert (Hne : forall (x : list ascii) xs, xs ++ [x] <> []) by (by intros ? []).
    destruct (is_terminator (code b)).
    + destruct init as [|r0 init]; simpl in H.
      * injection H as _ H. by apply Hne in H.
      * injection H as <- H. apply app_inj_tail in H as [-> ->].
        by destruct (is_terminator (code a)).
    + destruct init' as [|r rs]; simpl in *.
      * destruct init as [|? init]; simpl in H.
        -- injection H as <-. by destruct (is_terminator (code a)).
        -- injection H as _ H. symmetry in H. by apply Hne in H.
      * destruct init as [|r0 init]; simpl in H.
        -- injection H as _ H. by apply Hne in H.
        -- injection H as <- H. apply app_inj_tail in H as [-> ->].
           by destruct (is_terminator (code a)).
Qed.

Lemma length_split_sentences l :
  Z.of_nat (length (split_sentences l)) = count_terminators l + 1.
Proof.
  unfold count_terminators. induction l as [|a l IH]; [done|].
  cbn [split_sentences]. destruct (is_terminator (code a)) eqn:E.
  - rewrite filter_cons_True by done. simpl length. lia.
  - rewrite filter_cons_False by congruence.
    destruct (split_sentences l); simpl in *; lia.
Qed.

Lemma terminator_not_alnum c : is_terminator c = true -> isalnum c = false.
Proof.
  unfold is_terminator. intros H.
  apply orb_true_iff in H as [H|H]; [apply orb_true_iff in H as [H|H]|];
    apply Z.eqb_eq in H; subst c; reflexivity.
Qed.

Lemma sentences_with_snoc x segs seg :
  sentences_with x (segs ++ [seg]) =
  sentences_with x segs + (if decide (x ∈ sentence_words seg) then 1 else 0).
Proof.
  unfold sentences_with. rewrite filter_app, length_app, filter_cons, filter_nil.
  case_decide; simpl; lia.
Qed.

Lemma sentences_with_notin x segs :
  (forall seg, seg ∈ segs -> x ∉ sentence_words seg) -> sentences_with x segs = 0.
Proof.
  intros Hx. unfold sentences_with.
  destruct (filter _ segs) as [|seg l] eqn:E; [done|]. exfalso.
  assert (seg ∈ filter (fun seg => x ∈ sentence_words seg) segs) as Hs
    by (rewrite E; apply list_elem_of_here).
  apply list_elem_of_filter in Hs as [Hin Hs]. by apply (Hx seg).
Qed.

Lemma sent_ok_other segs ws sid wd e :
  word e <> wd -> sent_ok segs ws sid e -> sent_ok segs (ws ++ [wd]) sid e.
Proof.
  intros Hne [Hc Hl]. unfold sent_ok.
  assert (Hiff : word e ∈ ws ++ [wd] <-> word e ∈ ws).
  { rewrite elem_of_app, list_elem_of_singleton. tauto. }
  split; [|by rewrite Hiff].
  rewrite Hc. destruct (decide (word e ∈ ws)), (decide (word e ∈ ws ++ [wd]));
    first [lia | tauto].
Qed.

Lemma sent_ok_update segs ws sid e :
  sent_ok segs ws sid e -> sent_ok segs (ws ++ [word e]) sid (update_counts e sid).
Proof.
  intros [Hc Hl]. unfold sent_ok.
  rewrite sentence_count_update_counts, last_sentence_id_update_counts, word_update_counts.
  assert (Hin : word e ∈ ws ++ [word e]).
  { apply elem_of_app. right. apply list_elem_of_here. }
  split; [|tauto].
  rewrite Hc.
  destruct (decide (last_sentence_id e = sid)), (decide (word e ∈ ws)),
    (decide (word e ∈ ws ++ [word e])); first [lia | tauto].
Qed.

Lemma sent_ok_fresh segs ws sid wd :
  0 <= sid -> sentences_with wd segs = 0 ->
  sent_ok segs (ws ++ [wd]) sid (update_counts (fresh_entry wd) sid).
Proof.
  intros Hsid Hz. unfold sent_ok.
  rewrite sentence_count_update_counts, last_sentence_id_update_counts, word_update_counts.
  simpl. assert (Hin : wd ∈ ws ++ [wd]).
  { apply elem_of_app. right. apply list_elem_of_here. }
  split; [|tauto].
  rewrite Hz. destruct (decide (-1 = sid)), (decide (wd ∈ ws ++ [wd])); first [lia | tauto].
Qed.

Lemma recorded_sentences wd cs (t t' : table) segs ws :
  recorded wd cs t t' -> 0 <= cs ->
  NoDup (word <$> entries t) ->
  (wd ∉ word <$> entries t -> sentences_with wd segs = 0) ->
  Forall (sent_ok segs ws cs) (entries t) ->
  Forall (sent_ok segs (ws ++ [wd]) cs) (entries t').
Proof.
  intros (l1 & l2 & e0 & -> & Hcase) Hcs Hnd Hnew Hok.
  destruct Hcase as [[Ht Hw]|(Ht & -> & Hnotin)]; rewrite Ht in *.
  - rewrite fmap_app, fmap_cons in Hnd.
    apply NoDup_app in Hnd as (N1 & N12 & N2). apply NoDup_cons in N2 as [N2a N2b].
    rewrite Forall_app, Forall_cons in Hok. destruct Hok as (C1 & C0 & C2).
    apply Forall_app. split; [|apply Forall_cons; split].
    + apply Forall_forall. intros e He.
      apply sent_ok_other; [|by apply (proj1 (Forall_forall _ _) C1)].
      intros Hwe. apply (N12 (word e)); [by apply list_elem_of_fmap_2|].
      rewrite Hwe, <- Hw. apply list_elem_of_here.
    + rewrite <- Hw. by apply sent_ok_update.
    + apply Forall_forall. intros e He.
      apply sent_ok_other; [|by apply (proj1 (Forall_forall _ _) C2)].
      intros Hwe. apply N2a. rewrite Hw, <- Hwe. by apply list_elem_of_fmap_2.
  - assert (Hne : forall e, e ∈ l1 ++ l2 -> word e <> wd).
    { intros e He Hwe. apply Hnotin. rewrite <- Hwe. by apply list_elem_of_fmap_2. }
    apply Forall_app in Hok as [C1 C2].
    apply Forall_app. split; [|apply Forall_cons; split].
    + apply Forall_forall. intros e He.
      apply sent_ok_other; [|by apply (proj1 (Forall_forall _ _) C1)].
      apply Hne, elem_of_app. by left.
    + apply sent_ok_fresh; auto.
    + apply Forall_forall. intros e He.
      apply sent_ok_other; [|by apply (proj1 (Forall_forall _ _) C2)].
      apply Hne, elem_of_app. by right.
Qed.

Lemma finish_word_sentences w ws s m s' m' segs rs :
  table_inv ws s m -> Forall (fun a => code a <> 0) (buf s) ->
  0 <= current_sentence_id s ->
  finish_word w s m = Ret s' m' ->
  (forall x seg, seg ∈ segs -> x ∈ sentence_words seg ->
     x ∈ word <$> entries (hash_table m)) ->
  (forall x, x ∈ words_of_runs rs -> x ∈ word <$> entries (hash_table m)) ->
  Forall (sent_ok segs (words_of_runs rs) (current_sentence_id s))
    (entries (hash_table m)) ->
  (forall x seg, seg ∈ segs -> x ∈ sentence_words seg ->
     x ∈ word <$> entries (hash_table m')) /\
  (forall x, x ∈ words_of_runs (rs ++ [buf s]) -> x ∈ word <$> entries (hash_table m')) /\
  Forall (sent_ok segs (words_of_runs (rs ++ [buf s])) (current_sentence_id s))
    (entries (hash_table m')).
Proof.
  intros Hti Hbuf Hsid H Hold Hcur Hok.
  rewrite words_of_runs_app, words_of_runs_singleton.
  destruct (decide (buf s = [])) as [Hnil|Hne].
  - unfold finish_word, buf_len in H. rewrite Hnil in H. simpl in H. minv.
    by rewrite app_nil_r.
  - destruct (finish_word_records w s m s' m' (ti_wf _ _ _ Hti) Hbuf Hne H) as [_ Hrec].
    split; [|split].
    + intros x seg Hs Hx. apply (recorded_words _ _ _ _ x Hrec). right. eauto.
    + intros x [Hx|Hx%list_elem_of_singleton]%elem_of_app;
        apply (recorded_words _ _ _ _ x Hrec); [right; auto | by left].
    + eapply recorded_sentences; eauto.
      * apply (ti_nodup _ _ _ Hti).
      * intros Hnotin. apply sentences_with_notin. intros seg Hs Hx.
        apply Hnotin. eauto.
Qed.

Lemma scan_char_sentences w pre s a m s' m' :
  scan_inv pre s m -> sent_inv pre s m ->
  scan_char w s a m = Ret s' m' -> sent_inv (pre ++ [a]) s' m'.
Proof.
  intros [(rs0 & Hruns0 & Hti) Hbuf Hsent Hsid Hlen Hcap]
         (segs & cur & rs & Hsegs & Hruns & Hold & Hcur & Hok) H.
  unfold scan_char in H.
  pose proof (count_terminators_nonneg pre) as Hnn.
  pose proof (split_sentences_snoc _ a _ _ Hsegs) as Hs1.
  pose proof (split_words_snoc _ (lower_char a) _ _ Hruns) as Hw1.
  change [lower_char a] with (lower_char <$> [a]) in Hw1.
  rewrite isalnum_lower_char, <- (fmap_app lower_char cur [a]) in Hw1.
  fold (lower_char a) in H.
  destruct (isalnum (code a)) eqn:Halnum.
  - assert (Hterm : is_terminator (code a) = false).
    { destruct (is_terminator (code a)) eqn:E; [|done].
      apply terminator_not_alnum in E. congruence. }
    rewrite Hterm in Hs1.
    assert (Hm : hash_table m' = hash_table m /\ buf s' = buf s ++ [lower_char a] /\
                 current_sentence_id s' = current_sentence_id s).
    { destruct (buf_len s + 1 >=? buf_cap s); minv; simpl; auto. }
    destruct Hm as (Hm & Hb & Hc).
    exists segs, (cur ++ [a]), rs. by rewrite Hm, Hb, Hc.
  - minv.
    match goal with H : finish_word _ _ _ = Ret _ _ |- _ =>
      destruct (finish_word_Ret _ _ _ _ _ _ Hti Hbuf ltac:(lia) H)
        as (Hti' & Hb & _ & Hts & Hcs & _);
      destruct (finish_word_sentences _ _ _ _ _ _ segs rs Hti Hbuf ltac:(lia) H
                  Hold Hcur Hok) as (Hold' & Hcur' & Hok')
    end.
    assert (Hsw : sentence_words cur = words_of_runs (rs ++ [buf s])).
    { unfold sentence_words. by rewrite Hruns. }
    destruct (is_terminator (code a)) eqn:Hterm; minv; simpl.
    + exists (segs ++ [cur]), [], []. simpl. rewrite Hb.
      split; [by rewrite Hs1, <- app_assoc|]. split; [done|]. split; [|split].
      * intros y seg [Hseg|Hseg%list_elem_of_singleton]%elem_of_app Hy; [eauto|].
        subst seg. apply Hcur'. by rewrite <- Hsw.
      * intros y Hy. by apply elem_of_nil in Hy.
      * apply Forall_forall. intros e He.
        destruct (proj1 (Forall_forall _ _) Hok' e He) as [Hc Hl].
        destruct (proj1 (Forall_forall _ _) (ti_entries _ _ _ Hti') e He) as (_ & Hle & _).
        unfold sent_ok. rewrite sentences_with_snoc, Hsw, Hc.
        change (words_of_runs []) with (@nil string).
        destruct (decide (word e ∈ @nil string)) as [Hn%elem_of_nil|_]; [done|].
        split; [lia|].
        split; [lia | by intros ?%elem_of_nil].
    + exists segs, (cur ++ [a]), (rs ++ [buf s]). rewrite Hb, Hcs.
      split; [done|]. split; [by rewrite Hw1, <- app_assoc|]. done.
Qed.

Lemma sent_inv_init m :
  hash_table m = empty_table -> sent_inv [] (mkScan [] INITIAL_BUF_SIZE 0 0 0) m.
Proof.
  intros Hm. exists [], [], []. rewrite Hm, entries_empty_table.
  split; [done|]. split; [done|]. split; [|split].
  - intros x seg Hseg. by apply elem_of_nil in Hseg.
  - intros x Hx. by apply elem_of_nil in Hx.
  - constructor.
Qed.

Lemma main_scan_sentences w fp m s m' :
  hash_table m = empty_table -> main_scan w fp m = Ret s m' ->
  Forall (fun e => sentence_count e =
                   sentences_with (word e) (split_sentences (list_ascii_of_string fp)))
    (entries (hash_table m')).
Proof.
  intros Hm H. unfold main_scan in H. minv.
  match goal with H : foldM _ _ _ _ = _ |- _ =>
    apply (foldM_inv _ (fun pre s m => scan_inv pre s m /\ sent_inv pre s m) _ []) in H;
      [|intros ? ? ? ? ? ? [? ?] ?; split;
          [eapply scan_char_inv | eapply scan_char_sentences]; eauto
       |split; [by apply scan_inv_init | by apply sent_inv_init]] end.
  simpl in *.
  match goal with H : scan_inv _ _ _ /\ sent_inv _ _ _ |- _ =>
    destruct H as [[(rs0 & Hruns0 & Hti) Hbuf Hsent Hsid Hlen Hcap]
                   (segs & cur & rs & Hsegs & Hruns & Hold & Hcur & Hok)] end.
  pose proof (count_terminators_nonneg (list_ascii_of_string fp)) as Hnn.
  match goal with H : finish_word _ ?s1 _ = _ |- _ =>
    assert (Hsw : sentence_words cur = words_of_runs (rs ++ [buf s1]))
      by (unfold sentence_words; by rewrite Hruns);
    destruct (finish_word_sentences _ _ _ _ _ _ segs rs Hti Hbuf ltac:(lia) H
                Hold Hcur Hok) as (_ & _ & Hok') end.
  rewrite <- Hsw in Hok'.
  assert (Hm' : forall sid (m1 : mem),
    Forall (sent_ok segs (sentence_words cur) sid) (entries (hash_table m1)) ->
    Forall (fun e => sentence_count e =
                     sentences_with (word e) (split_sentences (list_ascii_of_string fp)))
      (entries (hash_table m1))).
  { intros sid m1 Hall. eapply Forall_impl; [exact Hall|]. intros e [Hc _]. simpl.
    by rewrite Hsegs, sentences_with_snoc. }
  match goal with H : (if ?b then _ else _) _ = _ |- _ => destruct b; minv end;
    by eapply Hm'.
Qed.

(** X13: the sentence count of an entry is the number of the sentences of
    the text in which its word occurs, a sentence being a piece of the text
    between terminators or after the last one; there is one such piece more
    than there are terminators. *)
Theorem sentence_count_sentences `{Qsort} w topic text a m e :
  main_body w topic text initial = Ret a m ->
  e ∈ entries (hash_table m) ->
  sentence_count e =
    sentences_with (word e) (split_sentences (list_ascii_of_string text)) /\
  Z.of_nat (length (split_sentences (list_ascii_of_string text))) =
    spec_sentences text + 1.
Proof.
  intros Hrun He. split; [|apply length_split_sentences].
  destruct (main_body_scan _ _ _ _ _ _ Hrun) as (s & m1 & Hscan & Hm & _).
  apply main_scan_sentences in Hscan; [|done].
  rewrite Hm in He. by apply (proj1 (Forall_forall _ _) Hscan).
Qed.

Lemma sentence_count_sentences_witness :
  exists a m,
    main_body (calm EmptyString) "cat" "cat. cat" initial = Ret a m /\
    sentence_count (mkWordEntry "cat" 2 2 1) =
      sentences_with "cat" (split_sentences (list_ascii_of_string "cat. cat")).
Proof.
  eexists _, _. split; [vm_compute; reflexivity|].
  refine (proj1 (sentence_count_sentences (calm EmptyString) "cat" "cat. cat" _ _
                   (mkWordEntry "cat" 2 2 1) _ _)).
  - vm_compute. reflexivity.
  - vm_compute. apply list_elem_of_here.
Defined.

(** ** [hash_word] *)

Lemma hash_step_mod h a :
  hash_step (h mod 2 ^ ULONG_BITS) a = (h * 33 + code a) mod 2 ^ ULONG_BITS.
Proof.
  unfold hash_step. rewrite Z.shiftl_mul_pow2 by lia.
  replace (h mod 2 ^ ULONG_BITS * 2 ^ 5 + h mod 2 ^ ULONG_BITS)
    with (h mod 2 ^ ULONG_BITS * 33) by lia.
  rewrite Z.add_mod, Z.mul_mod_idemp_l, <- Z.add_mod by (unfold ULONG_BITS; lia).
  done.
Qed.

Lemma hash_loop_mod s h :
  hash_loop s (h mod 2 ^ ULONG_BITS) = djb2 s h mod 2 ^ ULONG_BITS.
Proof.
  revert h. induction s as [|a s IH]; intros h; simpl; [done|].
  by rewrite hash_step_mod, IH.
Qed.

(** X14: the loop of [hash_word] computes [h * 33 + c], as its comment
    says, up to the wrap-around of [unsigned long]: the result is the djb2
    value of the word modulo [2 ^ ULONG_BITS], reduced modulo [HASH_SIZE];
    the empty word has the index of 5381, and a word of one character [c]
    the index of [5381 * 33 + c]. *)
Theorem hash_word_djb2 s :
  hash_word s = (djb2 s 5381 mod 2 ^ ULONG_BITS) mod HASH_SIZE /\
  hash_word EmptyString = 5381 /\
  (forall c, hash_word (String c EmptyString) = (177573 + code c) mod HASH_SIZE).
Proof.
  split; [|split].
  - unfold hash_word. rewrite <- hash_loop_mod. done.
  - reflexivity.
  - intros c. unfold hash_word, hash_loop, hash_step.
    change (Z.shiftl 5381 5 + 5381) with 177573.
    rewrite (Z.mod_small (177573 + code c)); [done|].
    pose proof (code_range c). unfold ULONG_BITS. lia.
Qed.

(** ** The case of the letters *)

Lemma tolower_idem c : tolower (tolower c) = tolower c.
Proof.
  unfold tolower.
  destruct (Z.leb_spec 65 c) as [H1|H1], (Z.leb_spec c 90) as [H2|H2]; simpl;
    repeat match goal with |- context [?x <=? ?y] => destruct (Z.leb_spec x y) end;
    simpl; lia.
Qed.

Lemma tolower_not_alnum c : isalnum c = false -> tolower c = c.
Proof.
  unfold isalnum, tolower.
  destruct (Z.leb_spec 65 c), (Z.leb_spec c 90); simpl; try done.
  rewrite orb_true_r. simpl. discriminate.
Qed.

Lemma scan_char_lower w s a : scan_char w s (lower_char a) = scan_char w s a.
Proof.
  unfold scan_char. rewrite code_lower_char, isalnum_tolower.
  destruct (isalnum (code a)) eqn:E.
  - by rewrite tolower_idem.
  - by rewrite tolower_not_alnum.
Qed.

Lemma foldM_scan_lower w l s m :
  foldM (scan_char w) (lower_char <$> l) s m = foldM (scan_char w) l s m.
Proof.
  revert s m. induction l as [|a l IH]; intros s m; simpl; [done|].
  rewrite scan_char_lower. unfold bind. destruct (scan_char w s a m); [apply IH | done].
Qed.

Lemma list_ascii_of_lower_string s :
  list_ascii_of_string (lower_string s) = lower_char <$> list_ascii_of_string s.
Proof. unfold lower_string. by rewrite list_ascii_of_string_of_list_ascii. Qed.

Lemma lower_string_idem s : lower_string (lower_string s) = lower_string s.
Proof.
  unfold lower_string at 1. rewrite list_ascii_of_lower_string.
  unfold lower_string. f_equal.
  induction (list_ascii_of_string s) as [|a l IH]; simpl; [done|].
  f_equal; [|done]. fold (lower_char a). by rewrite code_lower_char, tolower_idem.
Qed.

Lemma main_scan_lower w fp m : main_scan w (lower_string fp) m = main_scan w fp m.
Proof.
  unfold main_scan. rewrite list_ascii_of_lower_string. unfold bind.
  destruct (xmalloc w m); [|done]. by rewrite foldM_scan_lower.
Qed.

(** X15: the case of the letters of the text and of the topic has no
    effect on the analysis: the run on the lower-cased text and topic does
    the same as the run on the text and the topic, allocations and failures
    included; and the words of the text are those of the lower-cased text. *)
Theorem case_insensitive `{Qsort} w topic text m :
  main_body w (lower_string topic) (lower_string text) m = main_body w topic text m /\
  spec_words (lower_string text) = spec_words text.
Proof.
  split.
  - unfold main_body, bind. by rewrite main_scan_lower, lower_string_idem.
  - unfold spec_words. rewrite list_ascii_of_lower_string. f_equal. f_equal.
    induction (list_ascii_of_string text) as [|a l IH]; simpl; [done|].
    f_equal; [|done]. unfold lower_char at 1. by rewrite code_lower_char, tolower_idem.
Qed.

(** ** The allocation requests *)

Lemma length_entries_alter (t : table) (g : list WordEntry -> list WordEntry) i :
  (forall c, length (g c) = length c) ->
  length (entries (alter g i t)) = length (entries t).
Proof.
  intros Hg. unfold entries. revert i. induction t as [|c t IH]; intros i; [done|].
  destruct i as [|i]; simpl; rewrite !length_app.
  - by rewrite Hg.
  - f_equal. apply IH.
Qed.

Lemma length_entries_cons (t : table) e i :
  (i < length t)%nat ->
  length (entries (alter (cons e) i t)) = S (length (entries t)).
Proof.
  unfold entries. revert i. induction t as [|c t IH]; intros i Hi; simpl in Hi; [lia|].
  destruct i as [|i]; simpl; rewrite ?length_app; simpl; [done|].
  rewrite <- Nat.add_succ_r. f_equal. apply IH. lia.
Qed.

Lemma get_word_entry_allocs w wd cs m p m' :
  length (hash_table m) = Z.to_nat HASH_SIZE ->
  get_word_entry w wd cs m = Ret p m' ->
  Z.of_nat (length (allocs m')) - 2 * Z.of_nat (length (entries (hash_table m'))) =
  Z.of_nat (length (allocs m)) - 2 * Z.of_nat (length (entries (hash_table m))).
Proof.
  intros Hlen Hcall. pose proof (hash_word_range wd) as Hh.
  assert (Hupd : forall cs pos (c : list WordEntry),
            length (alter (fun e => update_counts e cs) pos c) = length c).
  { intros. apply length_alter. }
  unfold get_word_entry in Hcall. minv.
  destruct (chain_find wd _) as [pos|] eqn:Hfind; minv; simpl.
  - by rewrite length_entries_alter.
  - rewrite length_entries_alter by done.
    rewrite length_entries_cons by lia. rewrite !length_app. simpl. lia.
Qed.

Lemma finish_word_allocs w s m s' m' :
  length (hash_table m) = Z.to_nat HASH_SIZE ->
  finish_word w s m = Ret s' m' ->
  buf_cap s' = buf_cap s /\
  Z.of_nat (length (allocs m')) - 2 * Z.of_nat (length (entries (hash_table m'))) =
  Z.of_nat (length (allocs m)) - 2 * Z.of_nat (length (entries (hash_table m))).
Proof.
  intros Hlen H. unfold finish_word in H.
  destruct (0 <? buf_len s); minv; simpl; [|done].
  split; [done|]. by eapply get_word_entry_allocs.
Qed.

Lemma scan_char_allocs w n0 pre s a m s' m' :
  scan_inv pre s m -> alloc_inv n0 s m ->
  scan_char w s a m = Ret s' m' -> alloc_inv n0 s' m'.
Proof.
  intros [(rs & _ & Hti) _ _ _ _ _] (d & Hd & Hcap & Hreq) H.
  destruct (ti_wf _ _ _ Hti) as [Hlen _].
  unfold scan_char in H. destruct (isalnum (code a)).
  - destruct (buf_len s + 1 >=? buf_cap s); minv; simpl.
    + exists (d + 1). simpl. rewrite length_app, Z.pow_add_r by lia. simpl. lia.
    + by exists d.
  - minv.
    match goal with H : finish_word _ _ _ = _ |- _ =>
      apply finish_word_allocs in H as [Hc Hbal]; [|done] end.
    exists d. destruct (is_terminator (code a)); minv; simpl; (split; [done|]); split; lia.
Qed.

Lemma main_scan_allocs w fp m s m' :
  hash_table m = empty_table -> main_scan w fp m = Ret s m' ->
  alloc_inv (Z.of_nat (length (allocs m)) + 1) s m'.
Proof.
  intros Hm H. unfold main_scan in H. minv.
  match goal with H : foldM _ _ _ _ = _ |- _ =>
    apply (foldM_inv _ (fun pre s m1 =>
             scan_inv pre s m1 /\ alloc_inv (Z.of_nat (length (allocs m)) + 1) s m1) _ [])
      in H;
      [|intros ? ? ? ? ? ? [? ?] ?; split;
          [eapply scan_char_inv | eapply scan_char_allocs]; eauto
       |split; [by apply scan_inv_init|]] end.
  - match goal with H : scan_inv _ _ _ /\ alloc_inv _ _ _ |- _ =>
      destruct H as [[(rs & _ & Hti) _ _ _ _ _] (d & Hd & Hcap & Hreq)] end.
    destruct (ti_wf _ _ _ Hti) as [Hlen _].
    match goal with H : finish_word _ _ _ = _ |- _ =>
      apply finish_word_allocs in H as [Hc Hbal]; [|done] end.
    exists d.
    match goal with H : (if ?b then _ else _) _ = _ |- _ => destruct b; minv end;
      simpl; (split; [done|]); split; lia.
  - exists 0. simpl. rewrite Hm, entries_empty_table, length_app. simpl.
    unfold INITIAL_BUF_SIZE. lia.
Qed.

Lemma collect_chain_allocs w c array m array' m' :
  foldM (collect_entry w) c array m = Ret array' m' ->
  length (allocs m') = (length (allocs m) + length c)%nat.
Proof.
  revert array m. induction c as [|e c IH]; intros array m H; simpl in H.
  - minv. simpl. lia.
  - unfold collect_entry at 1 in H. minv. apply IH in H.
    rewrite H. simpl. rewrite length_app. simpl. lia.
Qed.

Lemma collect_chains_allocs w (t : table) array m array' m' :
  foldM (fun array c => foldM (collect_entry w) c array) t array m
    = Ret array' m' ->
  length (allocs m') = (length (allocs m) + length (entries t))%nat.
Proof.
  unfold entries. revert array m.
  induction t as [|c t IH]; intros array m H; simpl in H.
  - minv. simpl. lia.
  - minv. match goal with H : foldM (collect_entry _) _ _ _ = _ |- _ =>
      apply collect_chain_allocs in H as Hc end.
    apply IH in H. simpl. rewrite H, Hc, length_app. lia.
Qed.

Lemma main_collect_allocs w m array m' :
  main_collect w m = Ret array m' ->
  length (allocs m') = (length (allocs m) + length (entries (hash_table m)))%nat.
Proof.
  intros H. unfold main_collect in H. minv. by apply collect_chains_allocs in H.
Qed.

Lemma length_entries_distinct ws s m :
  table_inv ws s m -> length (entries (hash_table m)) = length (remove_dups ws).
Proof.
  intros [Hwf Hnd Hok Htot Hws Hkeys Hcnt].
  rewrite <- (length_fmap word). apply Permutation_length.
  apply NoDup_Permutation; [done | apply NoDup_remove_dups|].
  intros x. by rewrite Hkeys, elem_of_remove_dups.
Qed.



(** ** The rows of the report *)

Lemma total_count_Permutation l k : l ≡ₚ k -> total_count l = total_count k.
Proof.
  induction 1 as [|e l k _ IH|e1 e2 l|l1 l2 l3 _ IH1 _ IH2];
    rewrite ?total_count_cons; lia.
Qed.

Lemma total_count_nonneg l : Forall (fun e => 0 <= count e) l -> 0 <= total_count l.
Proof.
  induction 1 as [|e l He _ IH]; [done|]. rewrite total_count_cons. lia.
Qed.

Lemma total_count_submseteq l k :
  l ⊆+ k -> Forall (fun e => 0 <= count e) k -> total_count l <= total_count k.
Proof.
  intros [k' Hk]%submseteq_Permutation Hpos.
  rewrite (total_count_Permutation _ _ Hk), total_count_app.
  rewrite Hk in Hpos. apply Forall_app in Hpos as [_ Hpos].
  pose proof (total_count_nonneg _ Hpos). lia.
Qed.

(** X17: the rows of the report are rows of pairwise distinct words, and
    their counts add up to at most [total_words]: no occurrence of a word
    is reported twice. *)
Theorem report_rows_distinct `{Qsort} w topic text a m :
  main_body w topic text initial = Ret a m ->
  NoDup (l_word <$> rep_lines (print_report topic a)) /\
  foldr Z.add 0 (l_count <$> rep_lines (print_report topic a)) <=
    rep_total_words (print_report topic a).
Proof.
  intros Hrun.
  destruct (main_body_Ret w topic text initial a m eq_refl Hrun)
    as (s & Hsc & Hw & Hs & Harr & Htopic & Htop4).
  pose proof (sc_table _ _ _ Hsc) as [Hwf Hnd Hok Htot Hws Hkeys Hcnt].
  assert (Hperm : a_array a ≡ₚ entries (hash_table m)).
  { rewrite Harr. apply qsort_perm. }
  assert (Hsel : selected (a_top4 a) =
                 take 4 (filter (eligible (a_topic_entry a)) (a_array a))).
  { by rewrite Htop4, selected_slots. }
  set (rows := option_list (a_topic_entry a) ++ selected (a_top4 a)).
  assert (Hin : forall e, e ∈ rows -> e ∈ entries (hash_table m)).
  { intros e [He|He]%elem_of_app.
    - rewrite Htopic in He. destruct (lookup_word _ _) as [e'|] eqn:E; simpl in He.
      + apply list_elem_of_singleton in He as ->. by eapply lookup_word_elem.
      + by apply elem_of_nil in He.
    - rewrite Hsel in He. apply sel_eligible in He as [He _]. by rewrite Hperm in He. }
  assert (Hndr : NoDup (word <$> rows)).
  { unfold rows. rewrite fmap_app. apply NoDup_app. split; [|split].
    - destruct (a_topic_entry a); simpl; [apply NoDup_singleton | apply NoDup_nil_2].
    - intros x Hx (e' & -> & He')%list_elem_of_fmap.
      destruct (a_topic_entry a) as [e|] eqn:Hte; simpl in Hx;
        [|by apply elem_of_nil in Hx].
      apply list_elem_of_singleton in Hx.
      assert (e' ∈ rows) as He'r by (apply elem_of_app; by right).
      assert (e ∈ rows) as Her.
      { apply elem_of_app. left. rewrite ?Hte. apply list_elem_of_here. }
      rewrite Hsel in He'. apply sel_eligible in He' as [_ [Hne _]].
      apply Hne. f_equal.
      apply (NoDup_fmap_eq word (entries (hash_table m))); auto.
    - apply (sublist_NoDup _ (word <$> a_array a)).
      + by rewrite Hperm.
      + apply fmap_sublist. rewrite Hsel. apply sel_sublist. }
  rewrite rep_lines_print_report. fold rows. rewrite <- !list_fmap_compose. split.
  - exact Hndr.
  - change (foldr Z.add 0 ((l_count ∘ line_of (a_total_words a) (a_total_sentences a))
                             <$> rows)) with (total_count rows).
    simpl. rewrite Hw, <- Htot. apply total_count_submseteq.
    + apply NoDup_submseteq; [by apply NoDup_fmap_1 in Hndr | done].
    + eapply Forall_impl; [exact Hok|]. unfold entry_ok. intros; lia.
Qed.

Lemma report_rows_distinct_witness :
  exists a m,
    main_body (calm EmptyString) "cat" demo_text initial = Ret a m /\
    NoDup (l_word <$> rep_lines (print_report "cat" a)).
Proof.
  eexists _, _. split; [vm_compute; reflexivity|].
  eapply (report_rows_distinct (calm EmptyString) "cat" demo_text).
  vm_compute. reflexivity.
Defined.
